(** * unstructured.metrics.text_extraction

    A shallow embedding of [calculate_edit_distance], [remove_punctuation]
    and [bag_of_words] of [unstructured/metrics/text_extraction.py], and the
    properties of them that the design document states.

    Conventions of the embedding.
    - A Python [str] is the list of its code points ([list N]).
    - A Python [int] is a [Z]; a Python [float] is modelled by the exact
      rational ([Q]) it approximates.  Rounding to the nearest binary64 is
      monotone and leaves 0, 1/4, 3/4 and 1 fixed, which is all the
      statements below rely on; the scores of the test scenario are
      evaluated in binary64 as well ([score_binary64]).
    - A call either returns, raises, or (for a [while] loop run with a
      bound on its iterations) exhausts the bound: the type [res]. *)

From Stdlib Require Import ZArith QArith Qround Lia Lqa String Ascii.
From Stdlib Require Import Floats Uint63.
From stdpp Require Import base option list gmap.

Local Open Scope Z_scope.

(** ** Python values *)

(** Code points and strings. *)
Abbreviation str := (list N).

(** [u "abc"] is the Python string literal ["abc"] (ASCII text). *)
Definition u (s : string) : str :=
  List.map N_of_ascii (list_ascii_of_string s).

(** The exceptions the module can raise. *)
Inductive exception : Type :=
  | ValueError (msg : str)
  | ZeroDivisionError
  | KeyError (key : N)
  | IndexError.

(** The outcome of a call. *)
Inductive res (A : Type) : Type :=
  | Ret (a : A)
  | Raise (e : exception)
  | Timeout.
Arguments Ret {A} a.
Arguments Raise {A} e.
Arguments Timeout {A}.

#[global] Instance res_ret : MRet res := fun A a => Ret a.

#[global] Instance res_bind : MBind res := fun A B k m =>
  match m with
  | Ret a => k a
  | Raise e => Raise e
  | Timeout => Timeout
  end.

(** [sys.maxunicode]. *)
Definition maxunicode : N := 1114111%N.

(** ** rapidfuzz's Levenshtein.distance *)

(** [Levenshtein.distance] belongs to the rapidfuzz package: the module
    imports it and its code is not part of the sources.  The definitions
    of this section are written from the design document (4.1, step 2):
    the dynamic-programming edit-distance recurrence over the characters
    of the two strings, with one cost per operation.  [distance s1 s2 w]
    is the cost of turning [s1] into [s2]: a character of [s2] that is
    inserted is charged [insertion], a character of [s1] that is removed
    [deletion], one that is replaced [substitution].  The table is filled
    a row per character of [s2], the way rapidfuzz's Wagner-Fischer
    implementation fills it.  For weights that are not negative it is the
    cost of the cheapest edit script (lemma [distance_minimal]). *)

Module Levenshtein.

(** The weight triple [(insertion, deletion, substitution)]. *)
Record weights : Type := Weights {
  insertion : Z;
  deletion : Z;
  substitution : Z
}.

Definition min3 (a b c : Z) : Z := Z.min a (Z.min b c).

(** Modelled from the spec: the first row of the table of
    [Levenshtein.distance] (rapidfuzz, not in the sources), the cost of
    deleting the first [i] characters of [s1] for [i = 0 .. len s1],
    counted from [acc]. *)
Fixpoint first_row (w : weights) (s1 : str) (acc : Z) : list Z :=
  match s1 with
  | [] => [acc]
  | _ :: t1 => acc :: first_row w t1 (acc + deletion w)
  end.

(** Modelled from the spec: the cells of one row of the table of
    [Levenshtein.distance] (rapidfuzz, not in the sources) from the row
    above, left to right.  [left] is the cell just written, [diag] the
    cell of the row above to its left, [prev] the row above from this
    column on.  Equal characters copy the diagonal; different ones take
    the cheapest of a deletion, an insertion and a substitution. *)
Fixpoint next_cells (w : weights) (ch2 : N) (s1 : str)
    (left diag : Z) (prev : list Z) : list Z :=
  match s1, prev with
  | c1 :: t1, up :: prev' =>
      let x := if N.eqb c1 ch2 then diag
               else min3 (left + deletion w) (up + insertion w)
                         (diag + substitution w) in
      x :: next_cells w ch2 t1 x up prev'
  | _, _ => []
  end.

(** Modelled from the spec: the row of the table of [Levenshtein.distance]
    (rapidfuzz, not in the sources) for one more character [ch2] of [s2];
    its first cell is one more insertion. *)
Definition next_row (w : weights) (s1 : str) (row : list Z) (ch2 : N)
    : list Z :=
  match row with
  | [] => []
  | d :: prev => (d + insertion w) :: next_cells w ch2 s1 (d + insertion w) d prev
  end.

(** Modelled from the spec: the last row of the table of
    [Levenshtein.distance] (rapidfuzz, not in the sources). *)
Definition table (w : weights) (s1 s2 : str) : list Z :=
  fold_left (next_row w s1) s2 (first_row w s1 0).

(** Modelled from the spec: [Levenshtein.distance(s1, s2, weights=w)] of
    rapidfuzz, which is not in the sources: the last cell of the table. *)
Definition distance (s1 s2 : str) (w : weights) : Z :=
  default 0 (last (table w s1 s2)).

(** The recurrence itself, on the two strings read from their ends: the
    cell of the table for a prefix of [s1] and a prefix of [s2] is [lev]
    of the two prefixes reversed (lemma [distance_lev]). *)
Fixpoint lev (w : weights) (r1 : str) : str -> Z :=
  match r1 with
  | [] => fix lev_nil (r2 : str) : Z :=
      match r2 with
      | [] => 0
      | _ :: t2 => lev_nil t2 + insertion w
      end
  | c1 :: t1 => fix lev_cons (r2 : str) : Z :=
      match r2 with
      | [] => lev w t1 [] + deletion w
      | c2 :: t2 =>
          if N.eqb c1 c2 then lev w t1 t2
          else min3 (lev w t1 (c2 :: t2) + deletion w)
                    (lev_cons t2 + insertion w)
                    (lev w t1 t2 + substitution w)
      end
  end.

(** The design document's definition: the ways of turning [s] into [t]
    by keeping, replacing, removing and inserting single characters, each
    with its total cost. *)
Inductive script (w : weights) : str -> str -> Z -> Prop :=
  | script_nil : script w [] [] 0
  | script_keep c s t n :
      script w s t n -> script w (c :: s) (c :: t) n
  | script_substitute c d s t n :
      script w s t n -> script w (c :: s) (d :: t) (n + substitution w)
  | script_delete c s t n :
      script w s t n -> script w (c :: s) t (n + deletion w)
  | script_insert d s t n :
      script w s t n -> script w s (d :: t) (n + insertion w).

(** The weights the design document allows. *)
Definition nonneg (w : weights) : Prop :=
  0 <= insertion w /\ 0 <= deletion w /\ 0 <= substitution w.

End Levenshtein.

(** ** calculate_edit_distance *)

(** What the function returns: the [float] score or the [int] distance. *)
Inductive number : Type :=
  | Float (q : Q)
  | Int (z : Z).

Definition default_weights : Levenshtein.weights := Levenshtein.Weights 2 1 1.

Definition return_types : list str := [u "score"; u "distance"].

(** ["Invalid return value type. Expected one of: %s" % return_types]:
    the [%s] of a list is its [repr]. *)
Definition invalid_return_type_message : str :=
  u "Invalid return value type. Expected one of: ['score', 'distance']".

Definition str_eqb (a b : str) : bool := bool_decide (a = b).

(** Python's [x in l] on a list of strings. *)
Definition str_in (x : str) (l : list str) : bool := existsb (str_eqb x) l.

(** [distance / char_len]: true division of two ints. *)
Definition truediv (a b : Z) : res Q :=
  if Z.eqb b 0 then Raise ZeroDivisionError
  else Ret (inject_Z a / inject_Z b)%Q.

(** Python's [max(a, b)] and [min(a, b)] on two numbers: the first
    argument unless the second is strictly greater (smaller). *)
Definition py_max (a b : Q) : Q := if Qle_bool b a then a else b.
Definition py_min (a b : Q) : Q := if Qle_bool a b then a else b.

Definition calculate_edit_distance (output source : str)
    (weights : Levenshtein.weights) (return_as : str) : res number :=
  if negb (str_in return_as return_types) then
    Raise (ValueError invalid_return_type_message)
  else
    let distance := Levenshtein.distance output source weights in
    let char_len := Z.of_nat (length source) in
    ratio ← truediv distance char_len;
    let bounded_percentage_distance := py_min (py_max ratio 0) 1 in
    if str_eqb return_as (u "score") then
      Ret (Float (1 - bounded_percentage_distance)%Q)
    else if str_eqb return_as (u "distance") then
      Ret (Int distance)
    else Ret (Float 0).

(** The score in binary64 arithmetic, for a distance and a length below
    [2 ^ 53] (which a float holds exactly, so that the quotient of the two
    floats is Python's correctly rounded quotient of the two ints). *)
Definition float_of_int (z : Z) : float := PrimFloat.of_uint63 (Uint63.of_Z z).

Definition py_max_binary64 (a b : float) : float :=
  if PrimFloat.ltb a b then b else a.
Definition py_min_binary64 (a b : float) : float :=
  if PrimFloat.ltb b a then b else a.

Definition score_binary64 (distance char_len : Z) : float :=
  PrimFloat.sub 1%float
    (py_min_binary64
       (py_max_binary64
          (PrimFloat.div (float_of_int distance) (float_of_int char_len))
          0%float)
       1%float).

(** Python's [needle in hay] on two strings. *)
Fixpoint startswith (hay prefix : str) : bool :=
  match prefix, hay with
  | [], _ => true
  | p :: prefix', h :: hay' => N.eqb p h && startswith hay' prefix'
  | _ :: _, [] => false
  end.

Fixpoint contains (hay needle : str) : bool :=
  startswith hay needle ||
  match hay with
  | [] => false
  | _ :: hay' => contains hay' needle
  end.

(** Python's [round(x, ndigits)] on the exact value: to the nearest
    multiple of [10 ^ -ndigits], a tie to the even one. *)
Definition round_half_even (q : Q) : Z :=
  let f := Qfloor q in
  let r := (q - inject_Z f)%Q in
  match (r ?= 1 # 2)%Q with
  | Lt => f
  | Gt => f + 1
  | Eq => if Z.even f then f else f + 1
  end.

Definition py_round (q : Q) (ndigits : nat) : Q :=
  (inject_Z (round_half_even (q * inject_Z (10 ^ Z.of_nat ndigits)))
   / inject_Z (10 ^ Z.of_nat ndigits))%Q.

(** ** What the module takes from Python's Unicode database *)

(** [unicodedata.category], [str.isspace] and [str.lower] are Python's own.
    The embedding takes them as an interface, with the three facts about
    the database that the module depends on: [chr] is defined on
    [0 .. sys.maxunicode] and U+10FFFF is not punctuation, and the two
    characters [bag_of_words] keeps are punctuation (U+002D is [Pd],
    U+0027 is [Po]). *)
Class Unicode : Type := {
  (** [unicodedata.category(chr(i)).startswith("P")] *)
  category_P : N -> bool;
  (** [chr(i).isspace()] *)
  isspace : N -> bool;
  (** [s.lower()] *)
  lower : str -> str;
  category_P_range : forall i, category_P i = true -> (i < maxunicode)%N;
  category_P_hyphen : category_P 45 = true;
  category_P_apostrophe : category_P 39 = true
}.

(** ** remove_punctuation *)

Section TextExtraction.
Context `{Unicode}.

(** The deletion table [tbl]: a dict whose keys are the code points to
    delete (all values [None]).  Only membership and [del] are used, so
    the dict is its key set. *)
Definition translation_table : Type := N -> bool.

(** [dict.fromkeys(i for i in range(sys.maxunicode)
                   if unicodedata.category(chr(i)).startswith("P"))] *)
Definition punctuation_table : translation_table :=
  fun i => (i <? maxunicode)%N && category_P i.

(** [del tbl[k]] *)
Definition del (tbl : translation_table) (k : N) : res translation_table :=
  if tbl k then Ret (fun i => tbl i && negb (i =? k)%N)
  else Raise (KeyError k).

(** [for punct in exclude_punctuation: del tbl[ord(punct)]] *)
Fixpoint del_each (tbl : translation_table) (exclude_punctuation : list N)
    : res translation_table :=
  match exclude_punctuation with
  | [] => Ret tbl
  | punct :: rest => tbl' ← del tbl punct; del_each tbl' rest
  end.

(** [s.translate(tbl)], every key of [tbl] mapped to [None]. *)
Definition translate (s : str) (tbl : translation_table) : str :=
  List.filter (fun c => negb (tbl c)) s.

(** [exclude_punctuation] is [None] or a list of characters, each given
    by its code point [ord(punct)]. *)
Definition remove_punctuation (s : str) (exclude_punctuation : option (list N))
    : res str :=
  let tbl := punctuation_table in
  tbl ← match exclude_punctuation with
        | Some ((_ :: _) as l) => del_each tbl l
        | _ => Ret tbl
        end;
  Ret (translate s tbl).

(** ** bag_of_words *)

(** [s.split()]: the maximal runs of characters that are not whitespace.
    [cur] is the fragment being read. *)
Fixpoint split_from (cur : str) (s : str) : list str :=
  match s with
  | [] => match cur with [] => [] | _ => [cur] end
  | c :: s' =>
      if isspace c then
        match cur with
        | [] => split_from [] s'
        | _ => cur :: split_from [] s'
        end
      else split_from (cur ++ [c]) s'
  end.

Definition split (s : str) : list str := split_from [] s.

(** [if w in bow.keys(): bow[w] += 1 else: bow[w] = 1] *)
Definition count (w : str) (bow : gmap (list N) nat) : gmap (list N) nat :=
  match bow !! w with
  | Some n => <[w := S n]> bow
  | None => <[w := 1%nat]> bow
  end.

(** [while cond: body], run for at most [fuel] tests of the condition. *)
Fixpoint while {S : Type} (fuel : nat) (cond : S -> bool) (body : S -> res S)
    (s : S) : res S :=
  match fuel with
  | O => Timeout
  | Datatypes.S fuel' =>
      if cond s then s' ← body s; while fuel' cond body s' else Ret s
  end.

(** The inner loop, on the state [(j, incorrect_word)]:
    [while j < len(words) and len(words[j]) == 1:
         incorrect_word += words[j]; j += 1] *)
Definition scan_cond (words : list str) (st : nat * str) : bool :=
  match words !! st.1 with
  | Some w => Nat.eqb (length w) 1
  | None => false
  end.

Definition scan_body (words : list str) (st : nat * str) : res (nat * str) :=
  match words !! st.1 with
  | Some w => Ret (S st.1, st.2 ++ w)
  | None => Raise IndexError
  end.

(** The body of the outer loop, on the state [(i, bow)]. *)
Definition bow_body (fuel : nat) (words : list str)
    (st : nat * gmap (list N) nat) : res (nat * gmap (list N) nat) :=
  let '(i, bow) := st in
  match words !! i with
  | None => Raise IndexError
  | Some w =>
      if Nat.ltb 1 (length w) then Ret (S i, count w bow)
      else
        st' ← while fuel (scan_cond words) (scan_body words) (i, []);
        let '(j, incorrect_word) := st' in
        Ret (j, if Nat.eqb (length incorrect_word) 1
                then count incorrect_word bow else bow)
  end.

Definition bow_cond (words : list str) (st : nat * gmap (list N) nat) : bool :=
  Nat.ltb st.1 (length words).

(** The cursor loop over the fragments. *)
Definition count_words (fuel : nat) (words : list str)
    : res (gmap (list N) nat) :=
  st ← while fuel (bow_cond words) (bow_body fuel words) (0%nat, ∅);
  Ret st.2.

(** [bag_of_words], each [while] of it run for at most [fuel] tests. *)
Definition bag_of_words_fuel (fuel : nat) (text : str)
    : res (gmap (list N) nat) :=
  s ← remove_punctuation (lower text) (Some [45%N; 39%N]);
  count_words fuel (split s).

(** [bag_of_words]: one test more than there are fragments is enough
    (theorem [bag_of_words_terminates]). *)
Definition bag_of_words (text : str) : res (gmap (list N) nat) :=
  s ← remove_punctuation (lower text) (Some [45%N; 39%N]);
  let words := split s in
  count_words (S (length words)) words.

(** ** The merge rule in the words of the design document *)

(** The fragments of a text: lower-cased, the punctuation other than
    hyphen and apostrophe stripped, split on whitespace. *)
Definition fragments (text : str) : list str :=
  split (List.filter
           (fun c => negb (category_P c) || (c =? 45)%N || (c =? 39)%N)
           (lower text)).

(** A fragment sequence cut into its fragments of length other than 1 and
    its maximal contiguous runs of fragments of length 1. *)
Inductive group : Type :=
  | Word (w : str)
  | Run (r : list str).

Fixpoint groups (words : list str) : list group :=
  match words with
  | [] => []
  | w :: rest =>
      if Nat.eqb (length w) 1 then
        match groups rest with
        | Run r :: gs => Run (w :: r) :: gs
        | gs => Run [w] :: gs
        end
      else Word w :: groups rest
  end.

(** The fragments of a group, and the condition that no two runs are
    neighbours (each run is maximal). *)
Definition members (g : group) : list str :=
  match g with
  | Word w => [w]
  | Run r => r
  end.

Fixpoint runs_apart (gs : list group) : Prop :=
  match gs with
  | [] => True
  | g :: rest =>
      match g, rest with
      | Run _, Run _ :: _ => False
      | _, _ => True
      end /\ runs_apart rest
  end.

(** What a group adds to the mapping: a word itself, a run of exactly one
    fragment that single character, a longer run nothing. *)
Definition contribution (g : group) : list str :=
  match g with
  | Word w => if Nat.ltb 1 (length w) then [w] else []
  | Run [c] => [c]
  | Run _ => []
  end.

Definition counted (words : list str) : list str :=
  flat_map contribution (groups words).

(** Counting the strings of a list one after the other. *)
Definition tally_from (bow : gmap (list N) nat) (l : list str)
    : gmap (list N) nat :=
  fold_left (fun b t => count t b) l bow.

(** The number of times [k] occurs in [l]. *)
Definition occurrences (k : str) (l : list str) : nat :=
  length (List.filter (str_eqb k) l).

(** The mapping that gives every string that occurs in [l] the number of
    times it does, and has no other key. *)
Definition is_tally (l : list str) (bow : gmap (list N) nat) : Prop :=
  forall k : str,
    bow !! k = match occurrences k l with
               | O => None
               | S n => Some (S n)
               end.

End TextExtraction.

(** ** The database on ASCII *)

(** The punctuation of ASCII (categories [Pc], [Pd], [Ps], [Pe], [Po]):
    exclamation mark, quotation mark, number sign, percent, ampersand,
    apostrophe, parentheses, asterisk, comma, hyphen, full stop, solidus,
    colon, semicolon, question mark, commercial at, square brackets,
    reverse solidus, low line, curly brackets.  The other ASCII signs
    (dollar, plus, less, equals, greater, circumflex, grave, bar, tilde)
    are symbols, categories [Sc], [Sm], [Sk]. *)
Definition ascii_punctuation : list N :=
  [33; 34; 35; 37; 38; 39; 40; 41; 42; 44; 45; 46; 47; 58; 59; 63; 64;
   91; 92; 93; 95; 123; 125]%N.

(** The whitespace of ASCII: tab, newline, vertical tab, form feed,
    carriage return, the four separators U+001C .. U+001F, space. *)
Definition ascii_whitespace : list N :=
  [9; 10; 11; 12; 13; 28; 29; 30; 31; 32]%N.

Definition mem (c : N) (l : list N) : bool := existsb (N.eqb c) l.

Definition ascii_category_P (c : N) : bool := mem c ascii_punctuation.
Definition ascii_isspace (c : N) : bool := mem c ascii_whitespace.
Definition ascii_lower_char (c : N) : N :=
  if (65 <=? c)%N && (c <=? 90)%N then (c + 32)%N else c.
Definition ascii_lower (s : str) : str := List.map ascii_lower_char s.

Lemma ascii_category_P_range i :
  ascii_category_P i = true -> (i < maxunicode)%N.
Proof.
  unfold ascii_category_P, mem. rewrite existsb_exists.
  intros (x & Hx & Heq%N.eqb_eq). subst x. unfold maxunicode.
  simpl in Hx. intuition subst; reflexivity.
Qed.

(** Python's database cut down to ASCII: every other character is
    neither punctuation nor whitespace and has no lower case. *)
#[global] Instance ascii_unicode : Unicode := {|
  category_P := ascii_category_P;
  isspace := ascii_isspace;
  lower := ascii_lower;
  category_P_range := ascii_category_P_range;
  category_P_hyphen := eq_refl;
  category_P_apostrophe := eq_refl
|}.

(** A database agrees with Python's on ASCII when it classifies the
    ASCII characters as above and lower-cases ASCII text as above.
    Python's own does. *)
Definition ascii_faithful (U : Unicode) : Prop :=
  (forall c, (c < 128)%N ->
     @category_P U c = ascii_category_P c /\ @isspace U c = ascii_isspace c)
  /\ (forall s, Forall (fun c => (c < 128)%N) s -> @lower U s = ascii_lower s).

(** * unstructured.ingest.connector

    The parts of the two connectors that compute: which paths the git
    connector keeps, and how the Salesforce connector names its files,
    checks its categories and flattens a record.  What they fetch and
    write is left to the libraries they call. *)

(** [s.split(sep)] for a separator of one character: every occurrence
    cuts, and empty pieces stay. *)
Fixpoint split_on_from (sep : N) (cur s : str) : list str :=
  match s with
  | [] => [cur]
  | c :: s' =>
      if N.eqb c sep then cur :: split_on_from sep [] s'
      else split_on_from sep (cur ++ [c]) s'
  end.

Definition split_on (sep : N) (s : str) : list str := split_on_from sep [] s.

(** [s.endswith(suffix)] *)
Definition endswith (s suffix : str) : bool :=
  startswith (rev s) (rev suffix).

(** The comma, the separator of both connectors. *)
Definition comma : N := 44%N.

(** ** unstructured.ingest.connector.git *)

Module Git.

(** What [logger.debug] is given. *)
Inductive log_record : Type :=
  (** [f"The file {path!r} is discarded as it does not contain a
      supported filetype."] *)
  | DiscardedFiletype (path : str)
  (** [f"The file {path!r} is discarded as it does not match any given
      glob."] *)
  | DiscardedGlob (path : str).

Definition supported_suffixes : list str :=
  [u ".md"; u ".txt"; u ".pdf"; u ".doc"; u ".docx"; u ".eml"; u ".html";
   u ".png"; u ".jpg"; u ".ppt"; u ".pptx"; u ".xml"].

(** [GitConnector.is_file_type_supported]: the value returned and what
    is logged. *)
Definition is_file_type_supported (path : str) : bool * list log_record :=
  let supported := existsb (endswith path) supported_suffixes in
  if negb supported then (supported, [DiscardedFiletype path])
  else (supported, []).

Section Glob.

(** [bool(fnmatch.filter([path], pattern))]: whether [path] matches the
    shell pattern, by Python's [fnmatch]. *)
Variable fnmatch : str -> str -> bool.

(** [GitConnector.does_path_match_glob], for [self.config.file_glob]. *)
Definition does_path_match_glob (file_glob : option str) (path : str)
    : bool * list log_record :=
  match file_glob with
  | None => (true, [])
  | Some [] => (true, [])
  | Some glob =>
      let patterns := split_on comma glob in
      if existsb (fnmatch path) patterns then (true, [])
      else (false, [DiscardedGlob path])
  end.

End Glob.

End Git.

(** ** unstructured.ingest.connector.salesforce *)

Module Salesforce.

(** The exceptions of the module. *)
Inductive error : Type :=
  | MissingCategoryError (msg : str)
  | ValueError (msg : str)
  | SalesforceMalformedRequest (msg : str).

Definition ACCEPTED_CATEGORIES : list str :=
  [u "Account"; u "Case"; u "Campaign"; u "EmailMessage"; u "Lead"].

(** [str.strip()]: the whitespace at both ends removed. *)
Fixpoint lstrip `{Unicode} (s : str) : str :=
  match s with
  | [] => []
  | c :: s' => if isspace c then lstrip s' else s
  end.

Definition strip `{Unicode} (s : str) : str :=
  rev (lstrip (rev (lstrip s))).

(** [SimpleSalesforceConfig.parse_folders] *)
Definition parse_folders `{Unicode} (folder_str : str) : list str :=
  List.map strip (split_on comma folder_str).

(** A [pathlib] path built as [Path(a) / b / c], kept as its operands
    [[a; b; c]]: how [pathlib] joins them is not modelled. *)
Definition Path : Type := list str.

(** A [SalesforceIngestDoc]: the two directories of its
    [standard_config], and its record. *)
Record SalesforceIngestDoc : Type := {
  download_dir : str;
  output_dir : str;
  record_type : str;
  record_id : str
}.

Definition _tmp_download_file (doc : SalesforceIngestDoc) : error + Path :=
  if str_eqb (record_type doc) (u "EmailMessage") then
    inr [download_dir doc; record_type doc; record_id doc ++ u ".eml"]
  else if str_in (record_type doc)
            [u "Account"; u "Lead"; u "Case"; u "Campaign"] then
    inr [download_dir doc; record_type doc; record_id doc ++ u ".xml"]
  else
    inl (MissingCategoryError
           (u "There are no categories with the name: " ++ record_type doc)).

Definition _output_filename (doc : SalesforceIngestDoc) : Path :=
  [output_dir doc; record_type doc; record_id doc ++ u ".json"].

(** The values of a record: an [OrderedDict] of further values, or
    anything else, given by the text [f"{value}"] makes of it. *)
#[warnings="-register-all"]
Inductive value : Type :=
  | Other (text : str)
  | OrderedDict (items : list (str * value)).

(** [flatten_dict] of [_xml_for_record]: the texts of the [item] elements
    it appends to [parent], in order.  [flatten_item] is one turn of its
    loop, for [key] and [value]. *)
Fixpoint flatten_item (prefix key : str) (v : value) : list str :=
  match v with
  | Other text => [prefix ++ key ++ u ": " ++ text]
  | OrderedDict items =>
      (fix flatten_items (items : list (str * value)) : list str :=
         match items with
         | [] => []
         | (key', v') :: rest =>
             flatten_item (prefix ++ key ++ u ".") key' v'
             ++ flatten_items rest
         end) items
  end.

Definition flatten_dict (data : list (str * value)) (prefix : str) : list str :=
  flat_map (fun kv => flatten_item prefix kv.1 kv.2) data.

(** The values of a record that are not an [OrderedDict], at any depth. *)
Fixpoint leaves (v : value) : nat :=
  match v with
  | Other _ => 1%nat
  | OrderedDict items =>
      (fix leaves_items (items : list (str * value)) : nat :=
         match items with
         | [] => 0%nat
         | (_, v') :: rest => (leaves v' + leaves_items rest)%nat
         end) items
  end.

Section Client.

(** [client.query_all(query)], for a client that [_get_client] has
    returned: the [Id] of each record of the answer, or the exception the
    query raised. *)
Variable query_all : str -> error + list str.

Variables (download_dir0 output_dir0 : str).

(** The loop of [get_ingest_docs] over [self.config.categories];
    [ingest_docs] is the list built so far. *)
Fixpoint get_ingest_docs_from (ingest_docs : list SalesforceIngestDoc)
    (categories : list str) : error + list SalesforceIngestDoc :=
  match categories with
  | [] => inr ingest_docs
  | record_type :: rest =>
      if negb (str_in record_type ACCEPTED_CATEGORIES) then
        inl (ValueError
               (record_type
                ++ u " not currently an accepted Salesforce category"))
      else
        match query_all (u "select Id from " ++ record_type) with
        | inr ids =>
            get_ingest_docs_from
              (ingest_docs
               ++ List.map
                    (fun id => Build_SalesforceIngestDoc
                                 download_dir0 output_dir0 record_type id)
                    ids)
              rest
        | inl (SalesforceMalformedRequest e) =>
            inl (SalesforceMalformedRequest
                   (u "Problem with Salesforce query: " ++ e))
        | inl e => inl e
        end
  end.

Definition get_ingest_docs (categories : list str)
    : error + list SalesforceIngestDoc :=
  get_ingest_docs_from [] categories.

End Client.

End Salesforce.

(** * Properties *)

(** ** The test suite *)

(** The distances behind the scores that [test_calculate_edit_distance]
    expects (0.75, 0.39, 0.64, 0.0, 0.57, 0.89, 0.79 of 28 characters). *)
Definition source_cct : str := u "I like pizza. I like bagels.".

Definition test_distance (output : string) : Z :=
  Levenshtein.distance (u output) source_cct default_weights.

Example test_distances :
  test_distance "I like p i z z a . I like bagles." = 7
  /\ test_distance "I l i k e p i z z a . I l i k e b a g e l s ." = 17
  /\ test_distance "Ilikepizza.Ilikebagels." = 10
  /\ test_distance "I like pizza." = 30
  /\ test_distance "I like pizza. I like ." = 12
  /\ test_distance "I like pizza. I like beagles." = 3
  /\ test_distance "I like pizza pizza. I like bagels." = 6.
Proof. vm_compute. repeat split. Qed.

Example test_score_rounded :
  exists q,
    calculate_edit_distance (u "I like pizza. I like .")
      (u "I like pizza. I like bagels.") default_weights (u "score")
    = Ret (Float q)
    /\ py_round q 2 = (57 # 100)%Q.
Proof. eexists. split; vm_compute; reflexivity. Qed.

(** [test_bag_of_words], first and third case. *)
Example test_bag_of_words_1 :
  @bag_of_words ascii_unicode
    (u "The dog loved the cat, but the cat loved the cow")
  = Ret {[ u "the" := 4%nat; u "cat" := 2%nat; u "loved" := 2%nat;
           u "dog" := 1%nat; u "but" := 1%nat; u "cow" := 1%nat ]}.
Proof. vm_compute. reflexivity. Qed.

Example test_bag_of_words_3 :
  @bag_of_words ascii_unicode (u "I have a dog and a cat, I love my dog.")
  = Ret {[ u "i" := 2%nat; u "have" := 1%nat; u "a" := 2%nat;
           u "dog" := 2%nat; u "and" := 1%nat; u "cat" := 1%nat;
           u "love" := 1%nat; u "my" := 1%nat ]}.
Proof. vm_compute. reflexivity. Qed.

(** A hyphen and an apostrophe stay, other punctuation goes. *)
Example remove_punctuation_keeps :
  @remove_punctuation ascii_unicode (u "well-known: what's (this)?")
    (Some [45%N; 39%N])
  = Ret (u "well-known what's this").
Proof. vm_compute. reflexivity. Qed.

(** The same exclusion twice: the second [del] finds the key gone. *)
Example remove_punctuation_twice :
  @remove_punctuation ascii_unicode (u "a-b") (Some [45%N; 45%N])
  = Raise (KeyError 45).
Proof. vm_compute. reflexivity. Qed.

(** The fragments of a text and their groups. *)
Example groups_example :
  groups (@fragments ascii_unicode (u "Is H a r p e r a dog?"))
  = [Word (u "is");
     Run [u "h"; u "a"; u "r"; u "p"; u "e"; u "r"; u "a"];
     Word (u "dog")].
Proof. vm_compute. reflexivity. Qed.

(** ** The distance table *)

Section Table.
Import Levenshtein.
Variable w : weights.

Lemma length_first_row s1 acc : length (first_row w s1 acc) = S (length s1).
Proof.
  revert acc. induction s1 as [|c t IH]; intros acc; simpl; [done|].
  by rewrite IH.
Qed.

Lemma length_next_cells ch2 s1 left diag prev :
  length prev = length s1 ->
  length (next_cells w ch2 s1 left diag prev) = length s1.
Proof.
  revert left diag prev.
  induction s1 as [|c t IH]; intros left diag [|up prev] Hlen;
    simpl in *; try done.
  f_equal. apply IH. lia.
Qed.

Lemma length_next_row s1 row ch2 :
  length row = S (length s1) -> length (next_row w s1 row ch2) = S (length s1).
Proof.
  destruct row as [|d prev]; simpl; [done|]. intros Hlen.
  f_equal. apply length_next_cells. lia.
Qed.

Lemma length_fold_next_row s1 s2 row :
  length row = S (length s1) ->
  length (fold_left (next_row w s1) s2 row) = S (length s1).
Proof.
  revert row. induction s2 as [|c t IH]; intros row Hlen; simpl; [done|].
  apply IH. by apply length_next_row.
Qed.

(** The last cell of the table is the cell in column [len s1]. *)
Lemma distance_lookup s1 s2 d :
  table w s1 s2 !! length s1 = Some d -> distance s1 s2 w = d.
Proof.
  intros Hd. unfold distance. rewrite last_lookup.
  unfold table in *.
  rewrite length_fold_next_row by apply length_first_row.
  simpl. by rewrite Hd.
Qed.

(** *** Equal characters copy the diagonal *)

Lemma next_cells_match ch2 s1 k left diag prev :
  s1 !! k = Some ch2 ->
  length prev = length s1 ->
  next_cells w ch2 s1 left diag prev !! k = (diag :: prev) !! k.
Proof.
  revert k left diag prev.
  induction s1 as [|c t IH]; intros k left diag [|up prev] Hk Hlen;
    simpl in *; try done.
  destruct k as [|k]; simpl in *.
  - injection Hk as ->. by rewrite N.eqb_refl.
  - rewrite IH; [done..|lia].
Qed.

Lemma next_row_match s1 row ch2 k :
  s1 !! k = Some ch2 ->
  length row = S (length s1) ->
  next_row w s1 row ch2 !! S k = row !! k.
Proof.
  destruct row as [|d prev]; simpl; [done|]. intros Hk Hlen.
  rewrite next_cells_match; [done..|lia].
Qed.

Lemma fold_next_row_diagonal post : forall pre row,
  length row = S (length (pre ++ post)) ->
  row !! length pre = Some 0 ->
  fold_left (next_row w (pre ++ post)) post row !! length (pre ++ post)
  = Some 0.
Proof.
  induction post as [|c post IH]; intros pre row Hlen Hrow; simpl.
  - by rewrite app_nil_r.
  - replace (pre ++ c :: post) with ((pre ++ [c]) ++ post) in *
      by by rewrite <- app_assoc.
    apply IH.
    + by apply length_next_row.
    + rewrite length_app. simpl. rewrite Nat.add_1_r.
      rewrite next_row_match; [done| |done].
      rewrite <- app_assoc. simpl. by rewrite list_lookup_middle.
Qed.

Lemma first_row_head s1 acc : first_row w s1 acc !! 0%nat = Some acc.
Proof. by destruct s1. Qed.

(** A string is at distance 0 from itself. *)
Lemma distance_refl x : distance x x w = 0.
Proof.
  apply distance_lookup. unfold table.
  apply (fold_next_row_diagonal x []).
  - apply length_first_row.
  - apply first_row_head.
Qed.

(** *** The table holds the recurrence *)

Lemma lev_nil_cons c r2 : lev w [] (c :: r2) = lev w [] r2 + insertion w.
Proof. reflexivity. Qed.

Lemma lev_cons_nil c r1 : lev w (c :: r1) [] = lev w r1 [] + deletion w.
Proof. reflexivity. Qed.

Lemma lev_cons_cons c1 r1 c2 r2 :
  lev w (c1 :: r1) (c2 :: r2)
  = if N.eqb c1 c2 then lev w r1 r2
    else min3 (lev w r1 (c2 :: r2) + deletion w)
              (lev w (c1 :: r1) r2 + insertion w)
              (lev w r1 r2 + substitution w).
Proof. reflexivity. Qed.

(** The cells of a row right of a column: [seen] is the part of [s1] left
    of the column, reversed, and [r2] the part of [s2] read, reversed. *)
Fixpoint cells (seen todo r2 : str) : list Z :=
  match todo with
  | [] => []
  | c1 :: t => lev w (c1 :: seen) r2 :: cells (c1 :: seen) t r2
  end.

Lemma first_row_cells todo : forall seen,
  first_row w todo (lev w seen []) = lev w seen [] :: cells seen todo [].
Proof.
  induction todo as [|c t IH]; intros seen; [done|].
  change (cells seen (c :: t) [])
    with (lev w (c :: seen) [] :: cells (c :: seen) t []).
  rewrite <- IH, (lev_cons_nil c seen). reflexivity.
Qed.

Lemma next_cells_cells ch2 r2 todo : forall seen,
  next_cells w ch2 todo (lev w seen (ch2 :: r2)) (lev w seen r2)
    (cells seen todo r2)
  = cells seen todo (ch2 :: r2).
Proof.
  induction todo as [|c t IH]; intros seen; [done|].
  change (cells seen (c :: t) r2)
    with (lev w (c :: seen) r2 :: cells (c :: seen) t r2).
  change (cells seen (c :: t) (ch2 :: r2))
    with (lev w (c :: seen) (ch2 :: r2) :: cells (c :: seen) t (ch2 :: r2)).
  rewrite <- IH, (lev_cons_cons c seen ch2 r2). reflexivity.
Qed.

Lemma fold_next_row_cells s1 s2 : forall r2,
  fold_left (next_row w s1) s2 (lev w [] r2 :: cells [] s1 r2)
  = lev w [] (rev s2 ++ r2) :: cells [] s1 (rev s2 ++ r2).
Proof.
  induction s2 as [|c s2 IH]; intros r2; [done|].
  change (fold_left (next_row w s1) (c :: s2) (lev w [] r2 :: cells [] s1 r2))
    with (fold_left (next_row w s1) s2
            ((lev w [] r2 + insertion w)
             :: next_cells w c s1 (lev w [] r2 + insertion w) (lev w [] r2)
                  (cells [] s1 r2))).
  rewrite <- (lev_nil_cons c r2), next_cells_cells, IH.
  simpl rev. by rewrite <- !app_assoc.
Qed.

Lemma last_cells todo : forall seen r2,
  last (lev w seen r2 :: cells seen todo r2)
  = Some (lev w (rev todo ++ seen) r2).
Proof.
  induction todo as [|c t IH]; intros seen r2; [done|].
  change (cells seen (c :: t) r2)
    with (lev w (c :: seen) r2 :: cells (c :: seen) t r2).
  rewrite last_cons_cons, IH. simpl rev. by rewrite <- app_assoc.
Qed.

(** The distance is the recurrence on the reversed strings. *)
Lemma distance_lev s1 s2 : distance s1 s2 w = lev w (rev s1) (rev s2).
Proof.
  unfold distance, table.
  change (first_row w s1 0) with (first_row w s1 (lev w [] [])).
  rewrite first_row_cells, (fold_next_row_cells s1 s2 []), last_cells.
  by rewrite !app_nil_r.
Qed.

(** *** Edit scripts read from either end *)

Lemma script_snoc_keep c s t n :
  script w s t n -> script w (s ++ [c]) (t ++ [c]) n.
Proof.
  induction 1; simpl; try by constructor.
  apply script_keep, script_nil.
Qed.

Lemma script_snoc_substitute c d s t n :
  script w s t n -> script w (s ++ [c]) (t ++ [d]) (n + substitution w).
Proof.
  induction 1 as [|c' s t n _ IH|c' d' s t n _ IH|c' s t n _ IH|d' s t n _ IH];
    simpl.
  - apply script_substitute, script_nil.
  - by apply script_keep.
  - by apply script_substitute.
  - replace (n + deletion w + substitution w)
      with (n + substitution w + deletion w) by lia.
    by apply script_delete.
  - replace (n + insertion w + substitution w)
      with (n + substitution w + insertion w) by lia.
    by apply script_insert.
Qed.

Lemma script_snoc_delete c s t n :
  script w s t n -> script w (s ++ [c]) t (n + deletion w).
Proof.
  induction 1 as [|c' s t n _ IH|c' d' s t n _ IH|c' s t n _ IH|d' s t n _ IH];
    simpl.
  - apply script_delete, script_nil.
  - by apply script_keep.
  - replace (n + substitution w + deletion w)
      with (n + deletion w + substitution w) by lia.
    by apply script_substitute.
  - by apply script_delete.
  - replace (n + insertion w + deletion w)
      with (n + deletion w + insertion w) by lia.
    by apply script_insert.
Qed.

Lemma script_snoc_insert d s t n :
  script w s t n -> script w s (t ++ [d]) (n + insertion w).
Proof.
  induction 1 as [|c' s t n _ IH|c' d' s t n _ IH|c' s t n _ IH|d' s t n _ IH];
    simpl.
  - apply script_insert, script_nil.
  - by apply script_keep.
  - replace (n + substitution w + insertion w)
      with (n + insertion w + substitution w) by lia.
    by apply script_substitute.
  - replace (n + deletion w + insertion w)
      with (n + insertion w + deletion w) by lia.
    by apply script_delete.
  - by apply script_insert.
Qed.

Lemma script_rev s t n : script w s t n -> script w (rev s) (rev t) n.
Proof.
  induction 1; simpl.
  - constructor.
  - by apply script_snoc_keep.
  - by apply script_snoc_substitute.
  - by apply script_snoc_delete.
  - by apply script_snoc_insert.
Qed.

(** The recurrence is the cost of a script. *)
Lemma lev_script r1 : forall r2, script w r1 r2 (lev w r1 r2).
Proof.
  induction r1 as [|c1 t1 IH1]; intros r2.
  - induction r2 as [|c2 t2 IH2]; [constructor|].
    rewrite lev_nil_cons. by apply script_insert.
  - induction r2 as [|c2 t2 IH2].
    + rewrite lev_cons_nil. by apply script_delete.
    + rewrite lev_cons_cons. destruct (N.eqb c1 c2) eqn:Heq.
      * apply N.eqb_eq in Heq as ->. by apply script_keep.
      * unfold min3.
        destruct (Z.min_spec (lev w t1 (c2 :: t2) + deletion w)
                    (Z.min (lev w (c1 :: t1) t2 + insertion w)
                           (lev w t1 t2 + substitution w))) as [[_ ->]|[_ ->]].
        -- by apply script_delete.
        -- destruct (Z.min_spec (lev w (c1 :: t1) t2 + insertion w)
                       (lev w t1 t2 + substitution w)) as [[_ ->]|[_ ->]].
           ++ by apply script_insert.
           ++ by apply script_substitute.
Qed.

(** *** No cell is negative *)

Hypothesis w_nonneg : nonneg w.

Lemma first_row_nonneg s1 acc :
  0 <= acc -> Forall (Z.le 0) (first_row w s1 acc).
Proof.
  destruct w_nonneg as (_ & Hd & _).
  revert acc. induction s1 as [|c t IH]; intros acc Hacc; simpl.
  - by constructor.
  - constructor; [done|]. apply IH. lia.
Qed.

Lemma next_cells_nonneg ch2 s1 left diag prev :
  0 <= left -> 0 <= diag -> Forall (Z.le 0) prev ->
  Forall (Z.le 0) (next_cells w ch2 s1 left diag prev).
Proof.
  destruct w_nonneg as (Hi & Hd & Hs).
  revert left diag prev.
  induction s1 as [|c t IH]; intros left diag [|up prev] Hl Hdg Hprev;
    simpl; try by constructor.
  inversion Hprev as [|? ? Hup Hprev']; subst.
  assert (0 <= (if (c =? ch2)%N then diag
                else min3 (left + deletion w) (up + insertion w)
                          (diag + substitution w))) as Hx.
  { destruct (c =? ch2)%N; [done|]. unfold min3. lia. }
  constructor; [done|]. by apply IH.
Qed.

Lemma next_row_nonneg s1 row ch2 :
  Forall (Z.le 0) row -> Forall (Z.le 0) (next_row w s1 row ch2).
Proof.
  destruct w_nonneg as (Hi & _ & _).
  destruct row as [|d prev]; simpl; [done|].
  intros Hrow. inversion Hrow; subst.
  constructor; [lia|]. apply next_cells_nonneg; [lia|done|done].
Qed.

Lemma table_nonneg s1 s2 : Forall (Z.le 0) (table w s1 s2).
Proof.
  unfold table. generalize (first_row_nonneg s1 0 (Z.le_refl 0)).
  generalize (first_row w s1 0). induction s2 as [|c t IH]; intros row Hrow;
    simpl; [done|].
  apply IH. by apply next_row_nonneg.
Qed.

Lemma distance_nonneg s1 s2 : 0 <= distance s1 s2 w.
Proof.
  unfold distance. pose proof (table_nonneg s1 s2) as Hall.
  destruct (last (table w s1 s2)) as [d|] eqn:Hlast; simpl; [|done].
  rewrite Forall_forall in Hall. apply Hall.
  rewrite last_lookup in Hlast. by eapply list_elem_of_lookup_2.
Qed.

(** *** The recurrence is the cheapest script *)

(** One more character on either side moves the recurrence by at most
    the cost of inserting or deleting it. *)
Lemma lev_neighbours n : forall r1 r2 c,
  (length r1 + length r2 <= n)%nat ->
  lev w r1 r2 <= lev w (c :: r1) r2 + insertion w
  /\ lev w r1 r2 <= lev w r1 (c :: r2) + deletion w
  /\ lev w r1 (c :: r2) <= lev w r1 r2 + insertion w
  /\ lev w (c :: r1) r2 <= lev w r1 r2 + deletion w.
Proof.
  destruct w_nonneg as (Hi & Hd & Hs).
  induction n as [|n IH]; intros r1 r2 c Hn.
  - destruct r1, r2; simpl in Hn; try lia.
    rewrite lev_nil_cons, lev_cons_nil. simpl. lia.
  - assert (forall r1' r2' c',
      (length r1' + length r2' <= n)%nat ->
      lev w r1' (c' :: r2') <= lev w r1' r2' + insertion w) as HC.
    { intros r1' r2' c' Hn'. apply (IH r1' r2' c' Hn'). }
    assert (forall r1' r2' c',
      (length r1' + length r2' <= n)%nat ->
      lev w (c' :: r1') r2' <= lev w r1' r2' + deletion w) as HD.
    { intros r1' r2' c' Hn'. apply (IH r1' r2' c' Hn'). }
    assert (forall r1' r2' c',
      (length r1' + length r2' <= n)%nat ->
      lev w r1' r2' <= lev w (c' :: r1') r2' + insertion w) as HA.
    { intros r1' r2' c' Hn'. apply (IH r1' r2' c' Hn'). }
    assert (forall r1' r2' c',
      (length r1' + length r2' <= n)%nat ->
      lev w r1' r2' <= lev w r1' (c' :: r2') + deletion w) as HB.
    { intros r1' r2' c' Hn'. apply (IH r1' r2' c' Hn'). }
    repeat split.
    + destruct r2 as [|d t2].
      * rewrite lev_cons_nil. lia.
      * simpl in Hn. rewrite lev_cons_cons.
        pose proof (HC r1 t2 d ltac:(lia)).
        pose proof (HA r1 t2 c ltac:(lia)).
        destruct (N.eqb c d); unfold min3; lia.
    + destruct r1 as [|e t1].
      * rewrite lev_nil_cons. lia.
      * simpl in Hn. rewrite lev_cons_cons.
        pose proof (HD t1 r2 e ltac:(lia)).
        pose proof (HB t1 r2 c ltac:(lia)).
        destruct (N.eqb e c); unfold min3; lia.
    + destruct r1 as [|e t1].
      * rewrite lev_nil_cons. lia.
      * simpl in Hn. rewrite lev_cons_cons.
        pose proof (HA t1 r2 e ltac:(lia)) as H1.
        destruct (N.eqb e c) eqn:Heq; [|unfold min3; lia].
        apply N.eqb_eq in Heq as ->. lia.
    + destruct r2 as [|e t2].
      * rewrite lev_cons_nil. lia.
      * simpl in Hn. rewrite lev_cons_cons.
        pose proof (HB r1 t2 c ltac:(lia)) as H1.
        destruct (N.eqb c e) eqn:Heq; [|unfold min3; lia].
        apply N.eqb_eq in Heq as ->. lia.
Qed.

Lemma lev_minimal r1 r2 n : script w r1 r2 n -> lev w r1 r2 <= n.
Proof.
  destruct w_nonneg as (Hi & Hd & Hs).
  induction 1 as [|c s t n _ IH|c d s t n _ IH|c s t n _ IH|d s t n _ IH].
  - reflexivity.
  - by rewrite lev_cons_cons, N.eqb_refl.
  - rewrite lev_cons_cons. destruct (N.eqb c d); unfold min3; lia.
  - pose proof (lev_neighbours _ s t c (Nat.le_refl _)). lia.
  - pose proof (lev_neighbours _ s t d (Nat.le_refl _)). lia.
Qed.

(** The distance is the cost of a script that turns [s1] into [s2], and
    no script is cheaper. *)
Lemma distance_minimal s1 s2 :
  script w s1 s2 (distance s1 s2 w)
  /\ forall n, script w s1 s2 n -> distance s1 s2 w <= n.
Proof.
  rewrite distance_lev. split.
  - rewrite <- (rev_involutive s1), <- (rev_involutive s2) at 1.
    apply script_rev, lev_script.
  - intros n Hn. by apply lev_minimal, script_rev.
Qed.

End Table.

(** ** calculate_edit_distance *)

Lemma str_eqb_eq a b : str_eqb a b = true <-> a = b.
Proof. unfold str_eqb. apply bool_decide_eq_true. Qed.

Lemma str_eqb_neq a b : str_eqb a b = false <-> a <> b.
Proof. unfold str_eqb. apply bool_decide_eq_false. Qed.

Lemma str_in_return_types r :
  str_in r return_types = true <-> r = u "score" \/ r = u "distance".
Proof.
  unfold str_in, return_types. simpl.
  rewrite !orb_true_iff, !str_eqb_eq. intuition discriminate.
Qed.

Lemma truediv_zero a : truediv a 0 = Raise ZeroDivisionError.
Proof. reflexivity. Qed.

Lemma truediv_nonzero a b :
  b <> 0 -> truediv a b = Ret (inject_Z a / inject_Z b)%Q.
Proof. unfold truediv. intros Hb. by apply Z.eqb_neq in Hb as ->. Qed.

Lemma char_len_nonzero (source : str) :
  source <> [] -> Z.of_nat (length source) <> 0.
Proof. destruct source; simpl; [done|lia]. Qed.

(** The clamp [min(max(x, 0.0), 1.0)] lands in the unit interval. *)
Lemma clamp_bounds q : (0 <= py_min (py_max q 0) 1 <= 1)%Q.
Proof.
  unfold py_min, py_max.
  destruct (Qle_bool 0 q) eqn:H0.
  - apply Qle_bool_iff in H0.
    destruct (Qle_bool q 1) eqn:H1.
    + apply Qle_bool_iff in H1. by split.
    + split; [discriminate|apply Qle_refl].
  - destruct (Qle_bool 0 1) eqn:H1; [|discriminate].
    split; [apply Qle_refl|discriminate].
Qed.

(** An unrecognised mode is rejected first, whatever the other arguments. *)
Lemma calculate_edit_distance_invalid output source w r :
  r <> u "score" -> r <> u "distance" ->
  calculate_edit_distance output source w r
  = Raise (ValueError invalid_return_type_message).
Proof.
  intros Hs Hd. unfold calculate_edit_distance.
  destruct (str_in r return_types) eqn:Hin; [|done].
  apply str_in_return_types in Hin. tauto.
Qed.

(** With a recognised mode the division comes next, whatever the mode. *)
Lemma calculate_edit_distance_empty_source output w r :
  r = u "score" \/ r = u "distance" ->
  calculate_edit_distance output [] w r = Raise ZeroDivisionError.
Proof.
  intros Hr. apply str_in_return_types in Hr.
  unfold calculate_edit_distance. by rewrite Hr.
Qed.

Lemma calculate_edit_distance_score output source w :
  source <> [] ->
  calculate_edit_distance output source w (u "score")
  = Ret (Float (1 - py_min (py_max
                     (inject_Z (Levenshtein.distance output source w)
                      / inject_Z (Z.of_nat (length source))) 0) 1)%Q).
Proof.
  intros Hne. unfold calculate_edit_distance. simpl negb. cbv iota.
  by rewrite truediv_nonzero by by apply char_len_nonzero.
Qed.

Lemma calculate_edit_distance_distance output source w :
  source <> [] ->
  calculate_edit_distance output source w (u "distance")
  = Ret (Int (Levenshtein.distance output source w)).
Proof.
  intros Hne. unfold calculate_edit_distance. simpl negb. cbv iota.
  by rewrite truediv_nonzero by by apply char_len_nonzero.
Qed.

(** On a reference text that is not empty the score is in the unit
    interval and the distance is not negative. *)
Lemma calculate_edit_distance_bounded output source w :
  source <> [] -> Levenshtein.nonneg w ->
  (exists q, calculate_edit_distance output source w (u "score")
             = Ret (Float q) /\ (0 <= q <= 1)%Q) /\
  (exists d, calculate_edit_distance output source w (u "distance")
             = Ret (Int d) /\ 0 <= d).
Proof.
  intros Hne Hw. split.
  - eexists. split; [by apply calculate_edit_distance_score|].
    pose proof (clamp_bounds
      (inject_Z (Levenshtein.distance output source w)
       / inject_Z (Z.of_nat (length source)))) as Hc.
    split; lra.
  - eexists. split; [by apply calculate_edit_distance_distance|].
    by apply distance_nonneg.
Qed.

(** C1 (fails on the code): an empty [source] is not handled.  In both
    modes, for every [output] and every weight triple, the division by
    [char_len = 0] raises [ZeroDivisionError], which leaves the function
    as it is. *)
Theorem calculate_edit_distance_empty_source_raises :
  forall (output : str) (w : Levenshtein.weights),
    calculate_edit_distance output [] w (u "score") = Raise ZeroDivisionError
    /\ calculate_edit_distance output [] w (u "distance")
       = Raise ZeroDivisionError.
Proof.
  intros output w.
  split; apply calculate_edit_distance_empty_source; auto.
Qed.

(** C3 as stated, at [return_as = "bogus"]: the message of the
    [ValueError] does not name the offending value. *)
Lemma invalid_return_as_message_omits_value :
  ~ (exists msg,
       calculate_edit_distance (u "a") (u "b") default_weights (u "bogus")
       = Raise (ValueError msg)
       /\ contains msg (u "bogus") = true).
Proof.
  intros (msg & Hraise & Hnames).
  rewrite calculate_edit_distance_invalid in Hraise by discriminate.
  injection Hraise as <-. vm_compute in Hnames. discriminate.
Qed.

(** C3 (amended): every [return_as] other than ["score"] and ["distance"]
    makes the call raise [ValueError], whatever the other arguments (an
    empty [source] included, so before the distance is normalised); the
    message is the same for every offending value and lists the two valid
    modes. *)
Theorem invalid_return_as_rejected :
  forall (output source : str) (w : Levenshtein.weights) (return_as : str),
    return_as <> u "score" -> return_as <> u "distance" ->
    calculate_edit_distance output source w return_as
    = Raise (ValueError invalid_return_type_message)
    /\ contains invalid_return_type_message (u "['score', 'distance']") = true.
Proof.
  intros output source w r Hs Hd. split.
  - by apply calculate_edit_distance_invalid.
  - vm_compute. reflexivity.
Qed.

Lemma invalid_return_as_rejected_witness :
  (u "bogus" <> u "score" /\ u "bogus" <> u "distance") /\
  calculate_edit_distance (u "abc") [] default_weights (u "bogus")
  = Raise (ValueError invalid_return_type_message)
  /\ contains invalid_return_type_message (u "['score', 'distance']") = true.
Proof.
  split; [split; discriminate|].
  apply (invalid_return_as_rejected (u "abc") [] default_weights (u "bogus"));
    discriminate.
Defined.

(** C4 (fails on the code): with [return_as = "distance"] and an empty
    [source] the raw distance exists (3 deletions turn ["abc"] into the
    empty string) and the call raises [ZeroDivisionError] instead of
    returning it: the normalisation of the score path runs first. *)
Theorem distance_mode_empty_source_raises :
  Levenshtein.distance (u "abc") [] default_weights = 3
  /\ calculate_edit_distance (u "abc") [] default_weights (u "distance")
     = Raise ZeroDivisionError.
Proof. split; reflexivity. Qed.

(** C5 (fails on the code): with an empty [source] neither mode returns a
    number, so there is no value to bound. *)
Theorem empty_source_returns_no_number :
  forall (output : str) (w : Levenshtein.weights) (return_as : str) (n : number),
    calculate_edit_distance output [] w return_as <> Ret n.
Proof.
  intros output w r n.
  destruct (str_in r return_types) eqn:Hin.
  - apply str_in_return_types in Hin.
    by rewrite calculate_edit_distance_empty_source.
  - unfold calculate_edit_distance. by rewrite Hin.
Qed.

(** C6: the score of a non-empty string against itself is exactly 1, for
    every weight triple without a negative weight. *)
Theorem score_identity :
  forall (x : str) (w : Levenshtein.weights),
    x <> [] -> Levenshtein.nonneg w ->
    exists q, calculate_edit_distance x x w (u "score") = Ret (Float q)
              /\ (q == 1)%Q.
Proof.
  intros x w Hne _. eexists. split.
  - by apply calculate_edit_distance_score.
  - rewrite distance_refl.
    assert (inject_Z 0 / inject_Z (Z.of_nat (length x)) == 0)%Q as Hzero.
    { unfold Qdiv. apply Qmult_0_l. }
    unfold py_max.
    destruct (Qle_bool 0 (inject_Z 0 / inject_Z (Z.of_nat (length x))))
      eqn:Hmax.
    + unfold py_min.
      destruct (Qle_bool (inject_Z 0 / inject_Z (Z.of_nat (length x))) 1)
        eqn:Hmin.
      * rewrite Hzero. reflexivity.
      * exfalso. apply not_true_iff_false in Hmin. apply Hmin.
        apply Qle_bool_iff. rewrite Hzero. discriminate.
    + exfalso. apply not_true_iff_false in Hmax. apply Hmax.
      apply Qle_bool_iff. rewrite Hzero. apply Qle_refl.
Qed.

Lemma score_identity_witness :
  (u "I like pizza." <> [] /\ Levenshtein.nonneg default_weights) /\
  exists q,
    calculate_edit_distance (u "I like pizza.") (u "I like pizza.")
      default_weights (u "score") = Ret (Float q)
    /\ (q == 1)%Q.
Proof.
  assert (Levenshtein.nonneg default_weights) as Hw.
  { unfold Levenshtein.nonneg. simpl. lia. }
  split; [split; [discriminate|exact Hw]|].
  apply (score_identity (u "I like pizza.") default_weights);
    [discriminate|exact Hw].
Defined.

(** C7: with the default weights the score of
    ["I like p i z z a . I like bagles."] against
    ["I like pizza. I like bagels."] is 21/28, which rounds to 0.75, and
    the score of ["I like pizza."] against it is 0.  In binary64
    arithmetic the two scores are 0.75 and 0.0 exactly. *)
Theorem edit_distance_scenario :
  exists q1 q2 : Q,
    calculate_edit_distance (u "I like p i z z a . I like bagles.")
      (u "I like pizza. I like bagels.") default_weights (u "score")
    = Ret (Float q1)
    /\ (py_round q1 2 == 75 # 100)%Q
    /\ calculate_edit_distance (u "I like pizza.")
         (u "I like pizza. I like bagels.") default_weights (u "score")
       = Ret (Float q2)
    /\ (py_round q2 2 == 0)%Q
    /\ score_binary64
         (Levenshtein.distance (u "I like p i z z a . I like bagles.")
            (u "I like pizza. I like bagels.") default_weights)
         (Z.of_nat (length (u "I like pizza. I like bagels.")))
       = 0.75%float
    /\ score_binary64
         (Levenshtein.distance (u "I like pizza.")
            (u "I like pizza. I like bagels.") default_weights)
         (Z.of_nat (length (u "I like pizza. I like bagels.")))
       = 0%float.
Proof.
  exists (21 # 28)%Q, 0%Q.
  repeat split; vm_compute; reflexivity.
Qed.

(** ** remove_punctuation *)

Section RemovePunctuationFacts.
Context `{Unicode}.

Lemma punctuation_table_spec c : punctuation_table c = category_P c.
Proof.
  unfold punctuation_table. destruct (category_P c) eqn:HP.
  - apply category_P_range in HP. apply N.ltb_lt in HP. by rewrite HP.
  - apply andb_false_r.
Qed.

Lemma remove_punctuation_None s :
  remove_punctuation s None = Ret (translate s punctuation_table).
Proof. reflexivity. Qed.

Lemma remove_punctuation_nil s :
  remove_punctuation s (Some []) = Ret (translate s punctuation_table).
Proof. reflexivity. Qed.

Lemma remove_punctuation_cons s p l :
  remove_punctuation s (Some (p :: l))
  = tbl ← del_each punctuation_table (p :: l); Ret (translate s tbl).
Proof. reflexivity. Qed.

(** Nothing in the category survives a translation by the full table. *)
Lemma translate_strips s c :
  category_P c = true -> c ∉ translate s punctuation_table.
Proof.
  intros HP Hin. apply list_elem_of_In in Hin.
  unfold translate in Hin. apply filter_In in Hin as [_ Hkeep].
  by rewrite punctuation_table_spec, HP in Hkeep.
Qed.

(** Deleting a key that the table does not hold raises [KeyError]; a
    table never gains a key. *)
Lemma del_each_KeyError l : forall (tbl : translation_table) c,
  c ∈ l -> tbl c = false ->
  exists k, k ∈ l /\ del_each tbl l = Raise (KeyError k).
Proof.
  induction l as [|p rest IH]; intros tbl c Hin Hc.
  - by apply elem_of_nil in Hin.
  - simpl. unfold del. destruct (tbl p) eqn:Hp.
    + apply elem_of_cons in Hin as [->|Hin]; [congruence|].
      simpl. destruct (IH (fun i => tbl i && negb (i =? p)%N) c Hin)
        as (k & Hk & Hraise); [by rewrite Hc|].
      exists k. split; [by right|done].
    + exists p. split; [by left|done].
Qed.

Lemma translate_punctuation_table s :
  translate s punctuation_table = List.filter (fun c => negb (category_P c)) s.
Proof.
  unfold translate. apply List.filter_ext. intros c.
  by rewrite punctuation_table_spec.
Qed.

(** The call of [bag_of_words]: hyphen and apostrophe are in the table,
    so the two deletions succeed. *)
Lemma remove_punctuation_bag s :
  remove_punctuation s (Some [45%N; 39%N])
  = Ret (List.filter
           (fun c => negb (category_P c) || (c =? 45)%N || (c =? 39)%N) s).
Proof.
  rewrite remove_punctuation_cons. simpl. unfold del.
  rewrite punctuation_table_spec, category_P_hyphen. simpl.
  rewrite punctuation_table_spec, category_P_apostrophe. simpl.
  f_equal. unfold translate. apply List.filter_ext. intros c.
  rewrite punctuation_table_spec.
  destruct (category_P c), (c =? 45)%N, (c =? 39)%N; reflexivity.
Qed.

(** [split] returns no empty fragment. *)
Lemma split_from_nonempty s : forall cur, Forall (fun w => w <> []) (split_from cur s).
Proof.
  induction s as [|c s IH]; intros cur; simpl.
  - destruct cur; [constructor|]. by constructor.
  - destruct (isspace c).
    + destruct cur; [apply IH|]. constructor; [done|apply IH].
    + apply IH.
Qed.

Lemma split_nonempty s : Forall (fun w => w <> []) (split s).
Proof. apply split_from_nonempty. Qed.

End RemovePunctuationFacts.

(** ** The cursor loop of bag_of_words *)

Section CursorLoop.
Context `{Unicode}.

(** A fragment list ends a run here: it is over, or goes on with a
    fragment that is not a single character. *)
Definition run_ends (rest : list str) : Prop :=
  forall w, head rest = Some w -> length w <> 1%nat.

Lemma span_run (l : list str) :
  exists run rest,
    l = run ++ rest /\ Forall (fun w => length w = 1%nat) run /\ run_ends rest.
Proof.
  induction l as [|w l (run & rest & -> & Hrun & Hrest)].
  - exists [], []. repeat split; [constructor|]. by intros w.
  - destruct (decide (length w = 1%nat)) as [Hw|Hw].
    + exists (w :: run), rest. repeat split; [by constructor|done].
    + exists [], (w :: run ++ rest). repeat split; [constructor|].
      intros w' [= <-]. done.
Qed.

Lemma lookup_at_length (pre l : list str) :
  (pre ++ l) !! length pre = head l.
Proof.
  rewrite lookup_app_r by lia. rewrite Nat.sub_diag. by destruct l.
Qed.

Lemma concat_singletons (run : list str) :
  Forall (fun w => length w = 1%nat) run -> length (concat run) = length run.
Proof.
  induction 1 as [|w run Hw _ IH]; simpl; [done|].
  rewrite length_app. lia.
Qed.

Lemma while_S {S : Type} fuel (cond : S -> bool) (body : S -> res S) s :
  while (Datatypes.S fuel) cond body s
  = if cond s then s' ← body s; while fuel cond body s' else Ret s.
Proof. reflexivity. Qed.

Lemma scan_cond_at pre l acc :
  scan_cond (pre ++ l) (length pre, acc)
  = match head l with Some w => Nat.eqb (length w) 1 | None => false end.
Proof. unfold scan_cond. simpl. by rewrite lookup_at_length. Qed.

Lemma scan_body_at pre w l acc :
  scan_body (pre ++ w :: l) (length pre, acc) = Ret (S (length pre), acc ++ w).
Proof. unfold scan_body. simpl. by rewrite lookup_at_length. Qed.

(** The inner loop reads the whole run and stops behind it. *)
Lemma scan_run run : forall pre rest acc fuel,
  Forall (fun w => length w = 1%nat) run ->
  run_ends rest ->
  (length run < fuel)%nat ->
  while fuel (scan_cond (pre ++ run ++ rest)) (scan_body (pre ++ run ++ rest))
    (length pre, acc)
  = Ret ((length pre + length run)%nat, acc ++ concat run).
Proof.
  induction run as [|r run IH]; intros pre rest acc fuel Hrun Hrest Hfuel;
    (destruct fuel as [|fuel]; [simpl in Hfuel; lia|]);
    rewrite while_S, scan_cond_at.
  - simpl. rewrite Nat.add_0_r, app_nil_r.
    destruct rest as [|w rest]; simpl; [done|].
    specialize (Hrest w eq_refl). by apply Nat.eqb_neq in Hrest as ->.
  - inversion Hrun as [|? ? Hr Hrun']; subst.
    simpl. rewrite Hr. simpl Nat.eqb. cbv iota.
    rewrite scan_body_at. simpl.
    specialize (IH (pre ++ [r]) rest (acc ++ r) fuel Hrun' Hrest).
    rewrite <- !app_assoc, length_app in IH. simpl in IH.
    rewrite Nat.add_1_r in IH. rewrite IH by (simpl in Hfuel; lia).
    by rewrite Nat.add_succ_r.
Qed.

(** One iteration on a fragment longer than one character. *)
Lemma bow_body_word fuel words i bow w :
  words !! i = Some w -> (1 < length w)%nat ->
  bow_body fuel words (i, bow) = Ret (S i, count w bow).
Proof.
  intros Hw Hlen. unfold bow_body. rewrite Hw.
  by apply Nat.ltb_lt in Hlen as ->.
Qed.

(** One iteration on a single character: the run that starts there is
    consumed whole, and counted when it is that character alone. *)
Lemma bow_body_run fuel pre w run rest bow :
  length w = 1%nat ->
  Forall (fun w => length w = 1%nat) run ->
  run_ends rest ->
  (S (length run) < fuel)%nat ->
  bow_body fuel (pre ++ (w :: run) ++ rest) (length pre, bow)
  = Ret ((length pre + S (length run))%nat,
         match run with [] => count w bow | _ => bow end).
Proof.
  intros Hw Hrun Hrest Hfuel. unfold bow_body.
  rewrite lookup_at_length.
  change (head ((w :: run) ++ rest)) with (Some w). cbv iota.
  rewrite Hw. simpl Nat.ltb. cbv iota.
  rewrite (scan_run (w :: run) pre rest []); [|by constructor|done|simpl; lia].
  simpl.
  rewrite length_app, Hw, concat_singletons by done.
  destruct run as [|r run]; simpl; [|done].
  by rewrite app_nil_r.
Qed.

(** The empty fragment: the inner loop does not start and the cursor
    stays where it is. *)
Lemma bow_body_empty fuel words i bow :
  words !! i = Some [] ->
  bow_body (S fuel) words (i, bow) = Ret (i, bow).
Proof.
  intros Hw. unfold bow_body. rewrite Hw. simpl.
  unfold scan_cond. simpl. by rewrite Hw.
Qed.

(** *** The groups of a fragment list *)

Lemma groups_run_ends rest :
  run_ends rest ->
  match groups rest with Run _ :: _ => False | _ => True end.
Proof.
  destruct rest as [|w rest]; simpl; [done|]. intros Hends.
  specialize (Hends w eq_refl). by apply Nat.eqb_neq in Hends as ->.
Qed.

Lemma groups_cons w rest :
  groups (w :: rest)
  = if Nat.eqb (length w) 1 then
      match groups rest with
      | Run r :: gs => Run (w :: r) :: gs
      | gs => Run [w] :: gs
      end
    else Word w :: groups rest.
Proof. reflexivity. Qed.

Lemma groups_run w run rest :
  Forall (fun w => length w = 1%nat) (w :: run) ->
  run_ends rest ->
  groups ((w :: run) ++ rest) = Run (w :: run) :: groups rest.
Proof.
  revert w. induction run as [|r run IH]; intros w Hrun Hrest;
    inversion Hrun as [|? ? Hw Hrun']; subst;
    change ((w :: ?l) ++ rest) with (w :: (l ++ rest));
    rewrite groups_cons, Hw; simpl Nat.eqb; cbv iota.
  - simpl app. pose proof (groups_run_ends rest Hrest) as Hg.
    by destruct (groups rest) as [|[|] ?].
  - by rewrite IH.
Qed.

Lemma groups_word w rest :
  length w <> 1%nat -> groups (w :: rest) = Word w :: groups rest.
Proof. intros Hw. simpl. by apply Nat.eqb_neq in Hw as ->. Qed.

Lemma counted_word w rest :
  (1 < length w)%nat -> counted (w :: rest) = w :: counted rest.
Proof.
  intros Hw. unfold counted. rewrite groups_word by lia. simpl.
  by apply Nat.ltb_lt in Hw as ->.
Qed.

Lemma counted_run w run rest :
  Forall (fun w => length w = 1%nat) (w :: run) ->
  run_ends rest ->
  counted ((w :: run) ++ rest)
  = match run with [] => [w] | _ => [] end ++ counted rest.
Proof.
  intros Hrun Hrest. unfold counted. rewrite groups_run by done.
  by destruct run.
Qed.

(** *** The loop as a whole *)

Lemma bow_cond_at (pre suf : list str) (bow : gmap (list N) nat) :
  bow_cond (pre ++ suf) (length pre, bow)
  = match suf with [] => false | _ => true end.
Proof.
  unfold bow_cond. simpl. rewrite length_app.
  destruct suf; simpl.
  - apply Nat.ltb_ge. lia.
  - apply Nat.ltb_lt. lia.
Qed.

(** From a cursor at the start of [suf] the loop ends at [len(words)],
    having counted what the merge rule says [suf] contributes. *)
Lemma cursor_loop n : forall (suf pre : list str) bow fuel inner,
  (length suf <= n)%nat ->
  Forall (fun w => w <> []) suf ->
  (n < fuel)%nat ->
  (length (pre ++ suf) < inner)%nat ->
  while fuel (bow_cond (pre ++ suf)) (bow_body inner (pre ++ suf))
    (length pre, bow)
  = Ret (length (pre ++ suf), tally_from bow (counted suf)).
Proof.
  induction n as [|n IH]; intros suf pre bow fuel inner Hn Hne Hfuel Hinner;
    (destruct fuel as [|fuel]; [lia|]); rewrite while_S, bow_cond_at.
  - destruct suf; [|simpl in Hn; lia]. by rewrite app_nil_r.
  - destruct suf as [|w suf]; [by rewrite app_nil_r|].
    inversion Hne as [|? ? Hw Hne']; subst.
    destruct (decide (length w = 1%nat)) as [Hone|Hlong].
    + destruct (span_run suf) as (run & rest & -> & Hrun & Hrest).
      assert (length (pre ++ w :: run ++ rest)
              = (length pre + S (length run + length rest))%nat) as Hwords.
      { rewrite length_app. simpl. by rewrite length_app. }
      assert (length (w :: run ++ rest) = S (length run + length rest))
        as Hsuf.
      { simpl. by rewrite length_app. }
      rewrite Hwords in Hinner. rewrite Hsuf in Hn.
      change (w :: run ++ rest) with ((w :: run) ++ rest).
      rewrite bow_body_run; [|done|done|done|lia].
      simpl mbind.
      rewrite counted_run; [|by constructor|done].
      rewrite Forall_app in Hne'. destruct Hne' as [_ Hne'].
      specialize (IH rest (pre ++ w :: run)
        (match run with [] => count w bow | _ => bow end) fuel inner).
      rewrite <- !app_assoc in IH.
      change ((w :: run) ++ rest) with (w :: run ++ rest) in *.
      replace (length (pre ++ w :: run))
        with (length pre + S (length run))%nat in IH
        by (rewrite length_app; simpl; lia).
      rewrite IH; [|lia|done|lia|lia].
      by destruct run.
    + assert (1 < length w)%nat as Hlen.
      { destruct w; [done|]. simpl in *. lia. }
      rewrite (bow_body_word _ _ _ _ w);
        [|by rewrite lookup_at_length|done].
      simpl mbind. rewrite counted_word by done.
      specialize (IH suf (pre ++ [w]) (count w bow) fuel inner).
      rewrite <- !app_assoc in IH. simpl app in IH.
      replace (length (pre ++ [w])) with (S (length pre)) in IH
        by (rewrite length_app; simpl; lia).
      rewrite IH; [done|simpl in Hn; lia|done|lia|done].
Qed.

(** With more tests than fragments, neither loop runs out of them. *)
Lemma count_words_spec fuel words :
  Forall (fun w => w <> []) words ->
  (length words < fuel)%nat ->
  count_words fuel words = Ret (tally_from ∅ (counted words)).
Proof.
  intros Hne Hfuel. unfold count_words.
  by rewrite (cursor_loop (length words) words [] ∅ fuel fuel).
Qed.

(** *** Counting *)

Lemma occurrences_snoc k l t :
  occurrences k (l ++ [t])
  = (occurrences k l + if str_eqb k t then 1 else 0)%nat.
Proof.
  unfold occurrences. rewrite List.filter_app, length_app. simpl.
  by destruct (str_eqb k t).
Qed.

Lemma count_is_tally l bow t :
  is_tally l bow -> is_tally (l ++ [t]) (count t bow).
Proof.
  intros Hbow k. rewrite occurrences_snoc. unfold count.
  destruct (str_eqb k t) eqn:Hkt.
  - apply str_eqb_eq in Hkt as ->. rewrite (Hbow t).
    destruct (occurrences t l) as [|n]; rewrite lookup_insert_eq.
    + done.
    + by rewrite Nat.add_1_r.
  - apply str_eqb_neq in Hkt. rewrite Nat.add_0_r.
    destruct (bow !! t); rewrite lookup_insert_ne by done; apply Hbow.
Qed.

Lemma tally_from_is_tally toks : forall done bow,
  is_tally done bow -> is_tally (done ++ toks) (tally_from bow toks).
Proof.
  induction toks as [|t toks IH]; intros done bow Hbow; simpl.
  - by rewrite app_nil_r.
  - replace (done ++ t :: toks) with ((done ++ [t]) ++ toks)
      by by rewrite <- app_assoc.
    apply IH. by apply count_is_tally.
Qed.

Lemma tally_from_empty toks : is_tally toks (tally_from ∅ toks).
Proof. apply (tally_from_is_tally toks []). intros k. apply lookup_empty. Qed.

End CursorLoop.

(** ** bag_of_words against the merge rule *)

Section MergeRule.
Context `{Unicode}.

Lemma bag_of_words_fuel_spec fuel text :
  (length (fragments text) < fuel)%nat ->
  bag_of_words_fuel fuel text
  = Ret (tally_from ∅ (counted (fragments text))).
Proof.
  intros Hfuel. unfold bag_of_words_fuel.
  rewrite remove_punctuation_bag. simpl mbind.
  apply count_words_spec; [apply split_nonempty|done].
Qed.

Lemma bag_of_words_spec text :
  bag_of_words text = Ret (tally_from ∅ (counted (fragments text))).
Proof.
  unfold bag_of_words. rewrite remove_punctuation_bag. simpl mbind.
  apply count_words_spec; [apply split_nonempty|]. unfold fragments. lia.
Qed.

(** The groups are made of the fragments: a word is a fragment that is
    not a single character, a run is made of single characters. *)
Lemma groups_sound (words : list str) : forall g, g ∈ groups words ->
  match g with
  | Word w => w ∈ words /\ length w <> 1%nat
  | Run r => r <> [] /\ Forall (fun w => w ∈ words /\ length w = 1%nat) r
  end.
Proof.
  induction words as [|w words IH]; intros g Hg.
  - by apply elem_of_nil in Hg.
  - assert (forall g, g ∈ groups words ->
      match g with
      | Word w' => w' ∈ w :: words /\ length w' <> 1%nat
      | Run r =>
          r <> [] /\ Forall (fun w' => w' ∈ w :: words /\ length w' = 1%nat) r
      end) as IH'.
    { intros g' Hg'. specialize (IH g' Hg'). destruct g' as [w'|r].
      - destruct IH. split; [by right|done].
      - destruct IH as [Hr Hall]. split; [done|].
        eapply Forall_impl; [exact Hall|]. intros x [? ?].
        split; [by right|done]. }
    rewrite groups_cons in Hg.
    destruct (Nat.eqb (length w) 1) eqn:Hw.
    + apply Nat.eqb_eq in Hw.
      destruct (groups words) as [|[w'|r] gs] eqn:Hgs.
      * apply list_elem_of_singleton in Hg as ->.
        split; [done|]. constructor; [|constructor]. split; [by left|done].
      * apply elem_of_cons in Hg as [->|Hg]; [|by apply IH'].
        split; [done|]. constructor; [|constructor]. split; [by left|done].
      * apply elem_of_cons in Hg as [->|Hg].
        -- destruct (IH' (Run r)) as [_ Hall]; [by left|].
           split; [done|]. constructor; [|done]. split; [by left|done].
        -- apply IH'. by right.
    + apply Nat.eqb_neq in Hw.
      apply elem_of_cons in Hg as [->|Hg]; [|by apply IH'].
      split; [by left|done].
Qed.

(** The groups cut the fragment list: put back together they are the
    list, and no two runs touch. *)
Lemma groups_members (words : list str) :
  flat_map members (groups words) = words.
Proof.
  induction words as [|w words IH]; [done|].
  rewrite groups_cons. destruct (Nat.eqb (length w) 1).
  - destruct (groups words) as [|[w'|r] gs]; simpl in *; by rewrite <- IH.
  - simpl. by rewrite IH.
Qed.

Lemma groups_runs_apart (words : list str) : runs_apart (groups words).
Proof.
  induction words as [|w words IH]; [done|].
  rewrite groups_cons. destruct (Nat.eqb (length w) 1).
  - destruct (groups words) as [|[w'|r] gs]; simpl in *; tauto.
  - simpl. split; [done|exact IH].
Qed.

Lemma occurrences_elem_of k (l : list str) :
  occurrences k l <> 0%nat -> k ∈ l.
Proof.
  unfold occurrences. intros Hocc.
  destruct (List.filter (str_eqb k) l) as [|x xs] eqn:Hf; [done|].
  assert (In x (List.filter (str_eqb k) l)) as Hin by (rewrite Hf; by left).
  apply filter_In in Hin as [Hin Heq]. apply str_eqb_eq in Heq as ->.
  by apply list_elem_of_In.
Qed.

(** Where a counted string comes from: one group, a word longer than one
    character or a run of exactly one fragment. *)
Lemma counted_origin (words : list str) k :
  k ∈ counted words ->
  (Word k ∈ groups words /\ (1 < length k)%nat)
  \/ (Run [k] ∈ groups words /\ length k = 1%nat).
Proof.
  unfold counted. intros Hk. apply list_elem_of_In, in_flat_map in Hk.
  destruct Hk as (g & Hg%list_elem_of_In & Hk).
  pose proof (groups_sound words g Hg) as Hsound.
  destruct g as [w|r]; simpl in Hk.
  - destruct (Nat.ltb 1 (length w)) eqn:Hlen; [|done].
    destruct Hk as [->|[]]. left. split; [done|by apply Nat.ltb_lt].
  - destruct r as [|c [|c' r]]; [done| |done].
    destruct Hk as [->|[]]. right. split; [done|].
    destruct Hsound as [_ Hall]. by inversion Hall as [|? ? [_ ?] _].
Qed.

End MergeRule.

(** ** Any database that agrees on ASCII *)

Section Ascii.
Variable U : Unicode.
Hypothesis U_ascii : ascii_faithful U.

Lemma ascii_lower_ascii s :
  Forall (fun c => (c < 128)%N) s -> Forall (fun c => (c < 128)%N) (ascii_lower s).
Proof.
  unfold ascii_lower. intros Hs. apply Forall_map.
  eapply Forall_impl; [exact Hs|]. intros c Hc. simpl.
  unfold ascii_lower_char.
  destruct ((65 <=? c)%N && (c <=? 90)%N) eqn:Hup; [|done].
  apply andb_true_iff in Hup as [_ Hhi%N.leb_le]. lia.
Qed.

Lemma split_from_ascii s : forall cur,
  Forall (fun c => (c < 128)%N) s ->
  @split_from U cur s = @split_from ascii_unicode cur s.
Proof.
  destruct U_ascii as [Hcls _].
  induction s as [|c s IH]; intros cur Hs; simpl; [done|].
  inversion Hs as [|? ? Hc Hs']; subst.
  destruct (Hcls c Hc) as [_ ->]. simpl.
  destruct (ascii_isspace c); rewrite ?IH by done; done.
Qed.

Lemma filter_ascii (f : N -> bool) s :
  Forall (fun c => (c < 128)%N) s ->
  Forall (fun c => (c < 128)%N) (List.filter f s).
Proof.
  induction 1 as [|c s Hc _ IH]; simpl; [constructor|].
  destruct (f c); [by constructor|done].
Qed.

Lemma bag_of_words_ascii text :
  Forall (fun c => (c < 128)%N) text ->
  @bag_of_words U text = @bag_of_words ascii_unicode text.
Proof.
  intros Htext. destruct U_ascii as [Hcls Hlow].
  unfold bag_of_words. rewrite !remove_punctuation_bag. simpl mbind.
  rewrite (Hlow text Htext). simpl lower.
  pose proof (ascii_lower_ascii text Htext) as Hl.
  assert (List.filter
            (fun c => negb (@category_P U c) || (c =? 45)%N || (c =? 39)%N)
            (ascii_lower text)
          = List.filter
            (fun c => negb (@category_P ascii_unicode c) || (c =? 45)%N
                      || (c =? 39)%N)
            (ascii_lower text)) as ->.
  { induction Hl as [|c s Hc _ IH]; simpl; [done|].
    destruct (Hcls c Hc) as [-> _]. by rewrite IH. }
  unfold split. rewrite split_from_ascii; [done|].
  by apply filter_ascii.
Qed.

End Ascii.

Lemma ascii_unicode_faithful : ascii_faithful ascii_unicode.
Proof. split; intros; simpl; auto. Qed.

(** ** The claims about remove_punctuation and bag_of_words *)

(** C2: [bag_of_words] counts what the merge rule says.  For every
    database and every text the call returns, and the mapping gives every
    string the number of times the rule counts it among the fragments of
    the text (lower-cased, punctuation other than hyphen and apostrophe
    stripped, split on whitespace): once for each fragment longer than one
    character, once for each maximal run of single characters that is one
    fragment long, never for a longer run.  On the text of the test suite,
    under every database that agrees with Python's on ASCII, the mapping
    is the expected one. *)
Theorem bag_of_words_merge_rule :
  (forall (U : Unicode) (text : str),
     exists bow, bag_of_words text = Ret bow
                 /\ is_tally (counted (fragments text)) bow)
  /\ (forall U : Unicode, ascii_faithful U ->
        bag_of_words (u "Hello my name is H a r p e r, what's your name?")
        = Ret {[ u "hello" := 1%nat; u "my" := 1%nat; u "name" := 2%nat;
                 u "is" := 1%nat; u "what's" := 1%nat; u "your" := 1%nat ]}).
Proof.
  split.
  - intros U text. eexists. split; [apply bag_of_words_spec|].
    apply tally_from_empty.
  - intros U HU. rewrite (bag_of_words_ascii U HU).
    + vm_compute. reflexivity.
    + vm_compute. repeat constructor.
Qed.

Lemma bag_of_words_merge_rule_witness :
  ascii_faithful ascii_unicode /\
  @bag_of_words ascii_unicode
    (u "Hello my name is H a r p e r, what's your name?")
  = Ret {[ u "hello" := 1%nat; u "my" := 1%nat; u "name" := 2%nat;
           u "is" := 1%nat; u "what's" := 1%nat; u "your" := 1%nat ]}.
Proof.
  split; [exact ascii_unicode_faithful|].
  exact (proj2 bag_of_words_merge_rule ascii_unicode ascii_unicode_faithful).
Defined.

(** C8: a key of the mapping is never the empty string, and it is one
    group of the fragments: a fragment longer than one character, or the
    single character of a run that is one fragment long. *)
Theorem bag_of_words_keys :
  forall (U : Unicode) (text : str) (bow : gmap (list N) nat) (k : str),
    bag_of_words text = Ret bow ->
    is_Some (bow !! k) ->
    k <> []
    /\ k ∈ fragments text
    /\ ((Word k ∈ groups (fragments text) /\ (1 < length k)%nat)
        \/ (Run [k] ∈ groups (fragments text) /\ length k = 1%nat)).
Proof.
  intros U text bow k Hbow [n Hk].
  rewrite bag_of_words_spec in Hbow. injection Hbow as <-.
  rewrite (tally_from_empty (counted (fragments text)) k) in Hk.
  assert (k ∈ counted (fragments text)) as Hin.
  { apply occurrences_elem_of. by destruct (occurrences k _). }
  pose proof (counted_origin _ _ Hin) as Horigin.
  split; [|split; [|done]].
  - destruct Horigin as [[_ Hlen]|[_ Hlen]]; intros ->; simpl in Hlen; lia.
  - destruct Horigin as [[Hg _]|[Hg _]];
      apply groups_sound in Hg; simpl in Hg.
    + by destruct Hg.
    + destruct Hg as [_ Hall]. by inversion Hall as [|? ? [? _] _].
Qed.

Lemma bag_of_words_keys_witness :
  exists bow,
    @bag_of_words ascii_unicode (u "a dog") = Ret bow
    /\ is_Some (bow !! u "a")
    /\ u "a" <> []
    /\ u "a" ∈ @fragments ascii_unicode (u "a dog")
    /\ ((Word (u "a") ∈ groups (@fragments ascii_unicode (u "a dog"))
         /\ (1 < length (u "a"))%nat)
        \/ (Run [u "a"] ∈ groups (@fragments ascii_unicode (u "a dog"))
            /\ length (u "a") = 1%nat)).
Proof.
  exists {[ u "a" := 1%nat; u "dog" := 1%nat ]}.
  assert (@bag_of_words ascii_unicode (u "a dog")
          = Ret {[ u "a" := 1%nat; u "dog" := 1%nat ]}) as Hbow
    by (vm_compute; reflexivity).
  assert (is_Some (({[ u "a" := 1%nat; u "dog" := 1%nat ]}
                    : gmap (list N) nat) !! u "a")) as Hkey
    by (exists 1%nat; vm_compute; reflexivity).
  split; [exact Hbow|]. split; [exact Hkey|].
  exact (bag_of_words_keys ascii_unicode (u "a dog") _ (u "a") Hbow Hkey).
Defined.

Section Advance.
Context `{Unicode}.

(** Over fragments that are not empty, one iteration moves the cursor
    forward and not past the end. *)
Lemma bow_body_advances inner (words : list str) i bow w :
  Forall (fun w => w <> []) words ->
  words !! i = Some w ->
  (length words < inner)%nat ->
  exists i' bow',
    bow_body inner words (i, bow) = Ret (i', bow')
    /\ (i < i' <= length words)%nat.
Proof.
  intros Hne Hw Hinner.
  pose proof (lookup_lt_Some _ _ _ Hw) as Hi.
  destruct (decide (1 < length w)%nat) as [Hlong|Hshort].
  - exists (S i), (count w bow). split; [by eapply bow_body_word|lia].
  - assert (length w = 1%nat) as Hone.
    { rewrite Forall_forall in Hne.
      specialize (Hne w (list_elem_of_lookup_2 _ _ _ Hw)).
      destruct w; [done|]. simpl in *. lia. }
    destruct (span_run (drop (S i) words)) as (run & rest & Hdrop & Hrun & Hrest).
    pose proof (take_drop_middle words i w Hw) as Hsplit.
    rewrite Hdrop in Hsplit.
    assert (length (take i words) = i) as Hpre by (rewrite length_take; lia).
    assert (length words = (i + S (length run + length rest))%nat) as Hlen.
    { rewrite <- Hsplit at 1. rewrite length_app, Hpre. simpl.
      by rewrite length_app. }
    exists (i + S (length run))%nat,
           (match run with [] => count w bow | _ => bow end).
    split; [|lia].
    assert (S (length run) < inner)%nat as Hfuel by lia.
    pose proof (bow_body_run inner (take i words) w run rest bow
                  Hone Hrun Hrest Hfuel) as Hbody.
    change ((w :: run) ++ rest) with (w :: run ++ rest) in Hbody.
    by rewrite Hsplit, Hpre in Hbody.
Qed.

End Advance.

(** C9: [bag_of_words] terminates.  [split] returns no empty fragment;
    over such fragments every iteration of the cursor loop moves the
    cursor forward (on an empty fragment it would leave it where it is);
    and with more tests of the loop conditions allowed than there are
    fragments, the call returns. *)
Theorem bag_of_words_terminates :
  forall U : Unicode,
    (forall s : str, Forall (fun w => w <> []) (split s))
    /\ (forall inner (words : list str) i bow w,
          Forall (fun w => w <> []) words ->
          words !! i = Some w ->
          (length words < inner)%nat ->
          exists i' bow',
            bow_body inner words (i, bow) = Ret (i', bow')
            /\ (i < i' <= length words)%nat)
    /\ (forall inner (words : list str) i bow,
          words !! i = Some [] ->
          bow_body (S inner) words (i, bow) = Ret (i, bow))
    /\ (forall (text : str) fuel,
          (length (fragments text) < fuel)%nat ->
          exists bow,
            bag_of_words_fuel fuel text = Ret bow
            /\ bag_of_words text = Ret bow).
Proof.
  intros U. split; [apply split_nonempty|].
  split; [intros; by eapply bow_body_advances|].
  split; [intros; by apply bow_body_empty|].
  intros text fuel Hfuel. eexists. split.
  - by apply bag_of_words_fuel_spec.
  - apply bag_of_words_spec.
Qed.

Lemma bag_of_words_terminates_witness :
  (length (@fragments ascii_unicode (u "H a r p e r, what's")) < 8)%nat /\
  exists bow,
    @bag_of_words_fuel ascii_unicode 8 (u "H a r p e r, what's") = Ret bow
    /\ @bag_of_words ascii_unicode (u "H a r p e r, what's") = Ret bow.
Proof.
  assert (length (@fragments ascii_unicode (u "H a r p e r, what's")) < 8)%nat
    as Hfuel by (vm_compute; lia).
  split; [exact Hfuel|].
  exact (proj2 (proj2 (proj2 (bag_of_words_terminates ascii_unicode)))
           (u "H a r p e r, what's") 8%nat Hfuel).
Defined.

(** C10: an exclusion that is not punctuation makes [remove_punctuation]
    raise [KeyError] (on it, or on an exclusion before it that the table
    no longer holds); with [None] or an empty list nothing is excluded and
    the result is the string without its punctuation. *)
Theorem remove_punctuation_exclusions :
  forall (U : Unicode) (s : str),
    (forall (exclude_punctuation : list N) (c : N),
       c ∈ exclude_punctuation -> category_P c = false ->
       exists k, k ∈ exclude_punctuation
                 /\ remove_punctuation s (Some exclude_punctuation)
                    = Raise (KeyError k))
    /\ remove_punctuation s None
       = Ret (List.filter (fun c => negb (category_P c)) s)
    /\ remove_punctuation s (Some [])
       = Ret (List.filter (fun c => negb (category_P c)) s)
    /\ (forall c, category_P c = true ->
          c ∉ List.filter (fun c => negb (category_P c)) s).
Proof.
  intros U s. split; [|split; [|split]].
  - intros l c Hin Hc. destruct l as [|p l]; [by apply elem_of_nil in Hin|].
    rewrite remove_punctuation_cons.
    destruct (del_each_KeyError (p :: l) punctuation_table c Hin)
      as (k & Hk & Hraise); [by rewrite punctuation_table_spec|].
    exists k. split; [done|]. by rewrite Hraise.
  - by rewrite remove_punctuation_None, translate_punctuation_table.
  - by rewrite remove_punctuation_nil, translate_punctuation_table.
  - intros c Hc. rewrite <- translate_punctuation_table.
    by apply translate_strips.
Qed.

Lemma remove_punctuation_exclusions_witness :
  (97%N ∈ [45%N; 97%N] /\ @category_P ascii_unicode 97 = false) /\
  exists k, k ∈ [45%N; 97%N]
            /\ @remove_punctuation ascii_unicode (u "a-b, c") (Some [45%N; 97%N])
               = Raise (KeyError k).
Proof.
  assert (97%N ∈ [45%N; 97%N]) as Hin by (right; left).
  split; [split; [exact Hin|reflexivity]|].
  exact (proj1 (remove_punctuation_exclusions ascii_unicode (u "a-b, c"))
           [45%N; 97%N] 97%N Hin eq_refl).
Defined.

(** * Further properties *)

(** ** The score as a function of the distance *)

(** Weights that charge every operation. *)
Definition positive_weights (w : Levenshtein.weights) : Prop :=
  0 < Levenshtein.insertion w /\ 0 < Levenshtein.deletion w
  /\ 0 < Levenshtein.substitution w.

Lemma ratio_le (a b : Z) (p : positive) :
  (inject_Z a / inject_Z (Z.pos p) <= inject_Z b / inject_Z (Z.pos p))%Q
  <-> a <= b.
Proof.
  unfold Qdiv, Qinv, Qmult, Qle, inject_Z. simpl. split; nia.
Qed.

Lemma ratio_le_1 (a : Z) (p : positive) :
  (inject_Z a / inject_Z (Z.pos p) <= 1)%Q <-> a <= Z.pos p.
Proof.
  unfold Qdiv, Qinv, Qmult, Qle, inject_Z. simpl. split; nia.
Qed.

Lemma ratio_ge_1 (a : Z) (p : positive) :
  (1 <= inject_Z a / inject_Z (Z.pos p))%Q <-> Z.pos p <= a.
Proof.
  unfold Qdiv, Qinv, Qmult, Qle, inject_Z. simpl. split; nia.
Qed.

Lemma ratio_ge_0 (a : Z) (p : positive) :
  (0 <= inject_Z a / inject_Z (Z.pos p))%Q <-> 0 <= a.
Proof.
  unfold Qdiv, Qinv, Qmult, Qle, inject_Z. simpl. split; nia.
Qed.

Lemma ratio_eq_0 (a : Z) (p : positive) :
  (inject_Z a / inject_Z (Z.pos p) == 0)%Q <-> a = 0.
Proof.
  unfold Qdiv, Qinv, Qmult, Qeq, inject_Z. simpl. split; nia.
Qed.

(** The clamp of a ratio that is not negative: the ratio up to 1, then 1. *)
Lemma clamp_nonneg (r : Q) :
  (0 <= r)%Q ->
  (py_min (py_max r 0) 1 == if Qle_bool r 1 then r else 1)%Q.
Proof.
  intros Hr. unfold py_max.
  destruct (Qle_bool 0 r) eqn:H0.
  - reflexivity.
  - apply Qle_bool_iff in Hr. congruence.
Qed.

Lemma clamp_below (r : Q) :
  (0 <= r)%Q -> (r <= 1)%Q -> (py_min (py_max r 0) 1 == r)%Q.
Proof.
  intros H0 H1. rewrite clamp_nonneg by done.
  apply Qle_bool_iff in H1. by rewrite H1.
Qed.

Lemma clamp_above (r : Q) :
  (1 <= r)%Q -> (py_min (py_max r 0) 1 == 1)%Q.
Proof.
  intros H1. rewrite clamp_nonneg by lra.
  destruct (Qle_bool r 1) eqn:Hle; [|reflexivity].
  apply Qle_bool_iff in Hle. lra.
Qed.

(** The length of a source that is not empty. *)
Lemma char_len_pos (source : str) :
  source <> [] -> exists p, Z.of_nat (length source) = Z.pos p.
Proof.
  destruct source as [|c s]; [done|]. intros _.
  exists (Pos.of_succ_nat (length s)). simpl. lia.
Qed.

(** For a [source] that is not empty, what the score mode returns, by the
    distance [d] that the distance mode returns. *)
Lemma score_by_distance output source w :
  source <> [] -> Levenshtein.nonneg w ->
  exists q,
    calculate_edit_distance output source w (u "score") = Ret (Float q)
    /\ (Levenshtein.distance output source w <= Z.of_nat (length source) ->
        (q == 1 - inject_Z (Levenshtein.distance output source w)
                  / inject_Z (Z.of_nat (length source)))%Q)
    /\ (Z.of_nat (length source) <= Levenshtein.distance output source w ->
        (q == 0)%Q).
Proof.
  intros Hne Hw. eexists. split; [by apply calculate_edit_distance_score|].
  destruct (char_len_pos source Hne) as [p ->].
  pose proof (distance_nonneg w Hw output source) as Hd.
  split; intros Hle.
  - rewrite clamp_below; [reflexivity|by apply ratio_ge_0|by apply ratio_le_1].
  - rewrite clamp_above; [reflexivity|by apply ratio_ge_1].
Qed.

Lemma default_weights_nonneg : Levenshtein.nonneg default_weights.
Proof. unfold Levenshtein.nonneg. simpl. lia. Qed.

Lemma default_weights_positive : positive_weights default_weights.
Proof. unfold positive_weights. simpl. lia. Qed.

(** X1: against a [source] that is not empty, with no negative weight,
    both modes return: the score is in the unit interval and the distance
    is not negative. *)
Theorem nonempty_source_bounded :
  forall (output source : str) (w : Levenshtein.weights),
    source <> [] -> Levenshtein.nonneg w ->
    (exists q, calculate_edit_distance output source w (u "score")
               = Ret (Float q) /\ (0 <= q <= 1)%Q)
    /\ (exists d, calculate_edit_distance output source w (u "distance")
                  = Ret (Int d) /\ 0 <= d).
Proof.
  intros output source w Hne Hw. split.
  - eexists. split; [by apply calculate_edit_distance_score|].
    pose proof (clamp_bounds
      (inject_Z (Levenshtein.distance output source w)
       / inject_Z (Z.of_nat (length source)))) as Hc.
    split; lra.
  - eexists. split; [by apply calculate_edit_distance_distance|].
    by apply distance_nonneg.
Qed.

Lemma nonempty_source_bounded_witness :
  (u "I like pizza. I like bagels." <> [] /\ Levenshtein.nonneg default_weights)
  /\ (exists q, calculate_edit_distance (u "I like pizza.")
                  (u "I like pizza. I like bagels.") default_weights (u "score")
                = Ret (Float q) /\ (0 <= q <= 1)%Q)
  /\ (exists d, calculate_edit_distance (u "I like pizza.")
                  (u "I like pizza. I like bagels.") default_weights
                  (u "distance")
                = Ret (Int d) /\ 0 <= d).
Proof.
  split; [split; [discriminate|exact default_weights_nonneg]|].
  apply (nonempty_source_bounded (u "I like pizza.")
           (u "I like pizza. I like bagels.") default_weights);
    [discriminate|exact default_weights_nonneg].
Defined.

(** X2: the score is 0 exactly when the distance, as the distance mode
    returns it, has reached the length of the source. *)
Theorem score_zero_iff :
  forall (output source : str) (w : Levenshtein.weights),
    source <> [] -> Levenshtein.nonneg w ->
    exists q d,
      calculate_edit_distance output source w (u "score") = Ret (Float q)
      /\ calculate_edit_distance output source w (u "distance") = Ret (Int d)
      /\ ((q == 0)%Q <-> Z.of_nat (length source) <= d).
Proof.
  intros output source w Hne Hw.
  destruct (score_by_distance output source w Hne Hw) as (q & Hq & Hlow & Hhigh).
  exists q, (Levenshtein.distance output source w).
  split; [done|]. split; [by apply calculate_edit_distance_distance|].
  split; [|done]. intros Hzero.
  destruct (Z.le_gt_cases (Z.of_nat (length source))
              (Levenshtein.distance output source w)) as [|Hlt]; [done|].
  rewrite Hlow in Hzero by lia.
  destruct (char_len_pos source Hne) as [p Hp]. rewrite Hp in *.
  apply (ratio_ge_1 _ p). lra.
Qed.

Lemma score_zero_iff_witness :
  (u "ab" <> [] /\ Levenshtein.nonneg default_weights) /\
  exists q d,
    calculate_edit_distance (u "xyz") (u "ab") default_weights (u "score")
    = Ret (Float q)
    /\ calculate_edit_distance (u "xyz") (u "ab") default_weights (u "distance")
       = Ret (Int d)
    /\ ((q == 0)%Q <-> Z.of_nat (length (u "ab")) <= d).
Proof.
  split; [split; [discriminate|exact default_weights_nonneg]|].
  apply (score_zero_iff (u "xyz") (u "ab") default_weights);
    [discriminate|exact default_weights_nonneg].
Defined.

(** A script costs nothing only if it keeps every character. *)
Lemma script_positive w s t n :
  positive_weights w -> Levenshtein.script w s t n ->
  0 <= n /\ (n = 0 -> s = t).
Proof.
  intros (Hi & Hd & Hs).
  induction 1 as [|c s t n _ [IH0 IH]|c d s t n _ [IH0 IH]
                  |c s t n _ [IH0 IH]|d s t n _ [IH0 IH]].
  - done.
  - split; [done|]. intros Hn. by rewrite IH.
  - split; lia.
  - split; lia.
  - split; lia.
Qed.

Lemma positive_weights_nonneg w : positive_weights w -> Levenshtein.nonneg w.
Proof. unfold positive_weights, Levenshtein.nonneg. lia. Qed.

Lemma distance_zero_iff w s1 s2 :
  positive_weights w -> Levenshtein.distance s1 s2 w = 0 <-> s1 = s2.
Proof.
  intros Hw. split.
  - intros Hzero.
    destruct (distance_minimal w (positive_weights_nonneg w Hw) s1 s2)
      as [Hscript _].
    rewrite Hzero in Hscript.
    by apply (script_positive w s1 s2 0 Hw Hscript).
  - intros ->. apply distance_refl.
Qed.

(** X3: when every operation has a cost, the score is 1 for identical
    strings only. *)
Theorem score_one_iff :
  forall (output source : str) (w : Levenshtein.weights),
    source <> [] -> positive_weights w ->
    exists q,
      calculate_edit_distance output source w (u "score") = Ret (Float q)
      /\ ((q == 1)%Q <-> output = source).
Proof.
  intros output source w Hne Hw.
  pose proof (positive_weights_nonneg w Hw) as Hnn.
  destruct (score_by_distance output source w Hne Hnn) as (q & Hq & Hlow & Hhigh).
  exists q. split; [done|].
  rewrite <- (distance_zero_iff w output source Hw).
  pose proof (distance_nonneg w Hnn output source) as Hd.
  destruct (char_len_pos source Hne) as [p Hp]. rewrite Hp in *.
  split.
  - intros Hone.
    destruct (Z.le_gt_cases (Z.pos p) (Levenshtein.distance output source w))
      as [Hge|Hlt].
    + rewrite Hhigh in Hone by done. discriminate.
    + rewrite Hlow in Hone by lia. apply (ratio_eq_0 _ p). lra.
  - intros Hzero. rewrite Hlow by lia.
    apply (ratio_eq_0 _ p) in Hzero. lra.
Qed.

Lemma score_one_iff_witness :
  (u "bagels" <> [] /\ positive_weights default_weights) /\
  exists q,
    calculate_edit_distance (u "bagles") (u "bagels") default_weights
      (u "score") = Ret (Float q)
    /\ ((q == 1)%Q <-> u "bagles" = u "bagels").
Proof.
  split; [split; [discriminate|exact default_weights_positive]|].
  apply (score_one_iff (u "bagles") (u "bagels") default_weights);
    [discriminate|exact default_weights_positive].
Defined.

(** X4: against one source, an output at a larger distance never has a
    larger score. *)
Theorem score_antitone :
  forall (output1 output2 source : str) (w : Levenshtein.weights),
    source <> [] -> Levenshtein.nonneg w ->
    Levenshtein.distance output1 source w
    <= Levenshtein.distance output2 source w ->
    exists q1 q2,
      calculate_edit_distance output1 source w (u "score") = Ret (Float q1)
      /\ calculate_edit_distance output2 source w (u "score") = Ret (Float q2)
      /\ (q2 <= q1)%Q.
Proof.
  intros o1 o2 source w Hne Hw Hle.
  destruct (score_by_distance o1 source w Hne Hw) as (q1 & Hq1 & Hlow1 & Hhigh1).
  destruct (score_by_distance o2 source w Hne Hw) as (q2 & Hq2 & Hlow2 & Hhigh2).
  exists q1, q2. split; [done|]. split; [done|].
  pose proof (distance_nonneg w Hw o1 source) as Hd1.
  destruct (char_len_pos source Hne) as [p Hp]. rewrite Hp in *.
  destruct (Z.le_gt_cases (Z.pos p) (Levenshtein.distance o2 source w))
    as [Hge2|Hlt2].
  - rewrite Hhigh2 by done.
    destruct (Z.le_gt_cases (Z.pos p) (Levenshtein.distance o1 source w))
      as [Hge1|Hlt1].
    + rewrite Hhigh1 by done. apply Qle_refl.
    + rewrite Hlow1 by lia.
      assert (inject_Z (Levenshtein.distance o1 source w)
              / inject_Z (Z.pos p) <= 1)%Q by (apply ratio_le_1; lia).
      lra.
  - rewrite Hlow1, Hlow2 by lia.
    apply (ratio_le _ _ p) in Hle. lra.
Qed.

Lemma score_antitone_witness :
  (u "bagels" <> [] /\ Levenshtein.nonneg default_weights
   /\ Levenshtein.distance (u "bagles") (u "bagels") default_weights
      <= Levenshtein.distance (u "bgls") (u "bagels") default_weights) /\
  exists q1 q2,
    calculate_edit_distance (u "bagles") (u "bagels") default_weights
      (u "score") = Ret (Float q1)
    /\ calculate_edit_distance (u "bgls") (u "bagels") default_weights
         (u "score") = Ret (Float q2)
    /\ (q2 <= q1)%Q.
Proof.
  assert (Levenshtein.distance (u "bagles") (u "bagels") default_weights
          <= Levenshtein.distance (u "bgls") (u "bagels") default_weights)
    as Hle by (vm_compute; discriminate).
  split; [split; [discriminate|split; [exact default_weights_nonneg|exact Hle]]|].
  apply (score_antitone (u "bagles") (u "bgls") (u "bagels") default_weights);
    [discriminate|exact default_weights_nonneg|exact Hle].
Defined.

Lemma lev_nil_length w (r2 : str) :
  Levenshtein.lev w [] r2 = Levenshtein.insertion w * Z.of_nat (length r2).
Proof.
  induction r2 as [|c r2 IH]; [simpl; lia|].
  rewrite lev_nil_cons, IH. simpl length. lia.
Qed.

(** X5: an empty [output] is at distance [insertion * len(source)], so
    that its score is 0 as soon as an insertion costs 1 or more (as with
    the default weights). *)
Theorem empty_output_score :
  forall (source : str) (w : Levenshtein.weights),
    source <> [] -> Levenshtein.nonneg w ->
    calculate_edit_distance [] source w (u "distance")
    = Ret (Int (Levenshtein.insertion w * Z.of_nat (length source)))
    /\ (1 <= Levenshtein.insertion w ->
        exists q, calculate_edit_distance [] source w (u "score")
                  = Ret (Float q) /\ (q == 0)%Q).
Proof.
  intros source w Hne Hw.
  assert (Levenshtein.distance [] source w
          = Levenshtein.insertion w * Z.of_nat (length source)) as Hd.
  { rewrite distance_lev. simpl rev at 1.
    by rewrite lev_nil_length, length_rev. }
  split.
  - rewrite calculate_edit_distance_distance by done. by rewrite Hd.
  - intros Hins.
    destruct (score_by_distance [] source w Hne Hw) as (q & Hq & _ & Hhigh).
    exists q. split; [done|]. apply Hhigh. rewrite Hd. nia.
Qed.

Lemma empty_output_score_witness :
  (u "I like pizza." <> [] /\ Levenshtein.nonneg default_weights) /\
  calculate_edit_distance [] (u "I like pizza.") default_weights (u "distance")
  = Ret (Int (Levenshtein.insertion default_weights
              * Z.of_nat (length (u "I like pizza."))))
  /\ (1 <= Levenshtein.insertion default_weights ->
      exists q, calculate_edit_distance [] (u "I like pizza.") default_weights
                  (u "score") = Ret (Float q) /\ (q == 0)%Q).
Proof.
  split; [split; [discriminate|exact default_weights_nonneg]|].
  apply (empty_output_score (u "I like pizza.") default_weights);
    [discriminate|exact default_weights_nonneg].
Defined.

(** ** remove_punctuation: the exclusions *)

Section Exclusions.
Context `{Unicode}.

Lemma mem_elem_of c (l : list N) : mem c l = true <-> c ∈ l.
Proof.
  unfold mem. rewrite existsb_exists. split.
  - intros (x & Hx & ->%N.eqb_eq). by apply list_elem_of_In.
  - intros Hc. exists c. split; [by apply list_elem_of_In|apply N.eqb_refl].
Qed.

Lemma mem_cons c p (l : list N) : mem c (p :: l) = (c =? p)%N || mem c l.
Proof. reflexivity. Qed.

(** Distinct keys of the table are deleted one after the other. *)
Lemma del_each_distinct l : forall tbl : translation_table,
  NoDup l -> (forall c, c ∈ l -> tbl c = true) ->
  exists tbl', del_each tbl l = Ret tbl'
               /\ forall i, tbl' i = tbl i && negb (mem i l).
Proof.
  induction l as [|p rest IH]; intros tbl Hnd Hall.
  - exists tbl. split; [done|]. intros i. simpl. by rewrite andb_true_r.
  - apply NoDup_cons in Hnd as [Hp Hnd].
    simpl. unfold del. rewrite (Hall p) by by left. simpl.
    destruct (IH (fun i => tbl i && negb (i =? p)%N) Hnd)
      as (tbl' & Hdel & Htbl').
    { intros c Hc. rewrite (Hall c) by by right. simpl.
      apply negb_true_iff, N.eqb_neq. intros ->. done. }
    exists tbl'. split; [done|]. intros i.
    rewrite Htbl'. unfold mem. simpl.
    by destruct (tbl i), (i =? p)%N, (existsb (N.eqb i) rest).
Qed.

(** A key listed twice is gone the second time. *)
Lemma del_each_duplicate l : forall tbl : translation_table,
  ~ NoDup l -> exists k, k ∈ l /\ del_each tbl l = Raise (KeyError k).
Proof.
  induction l as [|p rest IH]; intros tbl Hdup.
  - destruct Hdup. constructor.
  - simpl. unfold del. destruct (tbl p) eqn:Hp.
    + simpl. destruct (decide (p ∈ rest)) as [Hin|Hnin].
      * destruct (del_each_KeyError rest
                    (fun i => tbl i && negb (i =? p)%N) p Hin)
          as (k & Hk & Hraise).
        { by rewrite N.eqb_refl, andb_false_r. }
        exists k. split; [by right|done].
      * destruct (IH (fun i => tbl i && negb (i =? p)%N)) as (k & Hk & Hraise).
        { intros Hnd. apply Hdup. by constructor. }
        exists k. split; [by right|done].
    + exists p. split; [by left|done].
Qed.

Lemma filter_filter_same (f : N -> bool) (s : str) :
  List.filter f (List.filter f s) = List.filter f s.
Proof.
  induction s as [|c s IH]; [done|]. simpl.
  destruct (f c) eqn:Hc; [|done]. simpl. by rewrite Hc, IH.
Qed.

Lemma filter_sublist (f : N -> bool) (s : str) : sublist (List.filter f s) s.
Proof.
  induction s as [|c s IH]; [constructor|]. simpl.
  destruct (f c); by constructor.
Qed.

(** Whatever the exclusions, the table that [remove_punctuation] builds
    does not depend on the string. *)
Lemma remove_punctuation_returns s exclude_punctuation s' :
  remove_punctuation s exclude_punctuation = Ret s' ->
  exists tbl : translation_table,
    s' = translate s tbl
    /\ forall t, remove_punctuation t exclude_punctuation
                 = Ret (translate t tbl).
Proof.
  unfold remove_punctuation.
  destruct exclude_punctuation as [[|p l]|]; simpl.
  - intros [= <-]. by exists punctuation_table.
  - destruct (del_each punctuation_table (p :: l)) as [tbl| |] eqn:Hdel;
      simpl in Hdel; rewrite Hdel; simpl; [|done..].
    intros [= <-]. by exists tbl.
  - intros [= <-]. by exists punctuation_table.
Qed.

End Exclusions.

(** X6: when the exclusions are distinct punctuation characters,
    [remove_punctuation] returns the string without its punctuation other
    than the exclusions; every other character stays, in order. *)
Theorem remove_punctuation_distinct :
  forall (U : Unicode) (s : str) (exclude_punctuation : list N),
    NoDup exclude_punctuation ->
    Forall (fun c => category_P c = true) exclude_punctuation ->
    remove_punctuation s (Some exclude_punctuation)
    = Ret (List.filter
             (fun c => negb (category_P c) || mem c exclude_punctuation) s).
Proof.
  intros U s l Hnd Hall.
  destruct (del_each_distinct l punctuation_table Hnd) as (tbl & Hdel & Htbl).
  { intros c Hc. rewrite Forall_forall in Hall.
    rewrite punctuation_table_spec. by apply Hall. }
  assert (translate s tbl
          = List.filter (fun c => negb (category_P c) || mem c l) s) as <-.
  { unfold translate. apply List.filter_ext. intros c.
    rewrite Htbl, punctuation_table_spec.
    by destruct (category_P c), (mem c l). }
  destruct l as [|p l]; [by injection Hdel as <-|].
  rewrite remove_punctuation_cons, Hdel. reflexivity.
Qed.

Lemma remove_punctuation_distinct_witness :
  (NoDup [45%N; 39%N]
   /\ Forall (fun c => @category_P ascii_unicode c = true) [45%N; 39%N]) /\
  @remove_punctuation ascii_unicode (u "well-known: what's (this)?")
    (Some [45%N; 39%N])
  = Ret (List.filter
           (fun c => negb (@category_P ascii_unicode c) || mem c [45%N; 39%N])
           (u "well-known: what's (this)?")).
Proof.
  assert (NoDup [45%N; 39%N]) as Hnd.
  { apply NoDup_cons. split; [|apply NoDup_singleton].
    intros Hin. apply list_elem_of_singleton in Hin. discriminate. }
  assert (Forall (fun c => @category_P ascii_unicode c = true) [45%N; 39%N])
    as Hall by (repeat constructor).
  split; [split; [exact Hnd|exact Hall]|].
  exact (remove_punctuation_distinct ascii_unicode
           (u "well-known: what's (this)?") [45%N; 39%N] Hnd Hall).
Defined.

(** X7: an exclusion listed twice makes [remove_punctuation] raise
    [KeyError], punctuation or not: its key is deleted once and missing
    the second time. *)
Theorem remove_punctuation_duplicate :
  forall (U : Unicode) (s : str) (exclude_punctuation : list N),
    ~ NoDup exclude_punctuation ->
    exists k, k ∈ exclude_punctuation
              /\ remove_punctuation s (Some exclude_punctuation)
                 = Raise (KeyError k).
Proof.
  intros U s l Hdup.
  destruct (del_each_duplicate l punctuation_table Hdup) as (k & Hk & Hraise).
  exists k. split; [done|].
  destruct l as [|p l]; [by apply elem_of_nil in Hk|].
  by rewrite remove_punctuation_cons, Hraise.
Qed.

Lemma remove_punctuation_duplicate_witness :
  ~ NoDup [45%N; 39%N; 45%N] /\
  exists k, k ∈ [45%N; 39%N; 45%N]
            /\ @remove_punctuation ascii_unicode (u "a-b") (Some [45%N; 39%N; 45%N])
               = Raise (KeyError k).
Proof.
  assert (~ NoDup [45%N; 39%N; 45%N]) as Hdup.
  { intros Hnd. apply NoDup_cons in Hnd as [Hnin _]. apply Hnin.
    right. left. }
  split; [exact Hdup|].
  exact (remove_punctuation_duplicate ascii_unicode (u "a-b")
           [45%N; 39%N; 45%N] Hdup).
Defined.

(** X8: what [remove_punctuation] returns is a subsequence of the string,
    and removing the punctuation from it again, with the same exclusions,
    returns it unchanged. *)
Theorem remove_punctuation_idempotent :
  forall (U : Unicode) (s : str) (exclude_punctuation : option (list N))
         (s' : str),
    remove_punctuation s exclude_punctuation = Ret s' ->
    sublist s' s /\ remove_punctuation s' exclude_punctuation = Ret s'.
Proof.
  intros U s ex s' Hret.
  destruct (remove_punctuation_returns s ex s' Hret) as (tbl & -> & Hall).
  split; [apply filter_sublist|].
  rewrite Hall. unfold translate. by rewrite filter_filter_same.
Qed.

Lemma remove_punctuation_idempotent_witness :
  @remove_punctuation ascii_unicode (u "a-b, c!") (Some [45%N])
  = Ret (u "a-b c")
  /\ sublist (u "a-b c") (u "a-b, c!")
  /\ @remove_punctuation ascii_unicode (u "a-b c") (Some [45%N])
     = Ret (u "a-b c").
Proof.
  assert (@remove_punctuation ascii_unicode (u "a-b, c!") (Some [45%N])
          = Ret (u "a-b c")) as Hret by reflexivity.
  split; [exact Hret|].
  exact (remove_punctuation_idempotent ascii_unicode (u "a-b, c!")
           (Some [45%N]) (u "a-b c") Hret).
Defined.

(** ** split and the fragments *)

Section SplitFacts.
Context `{Unicode}.

Lemma split_from_concat s : forall cur,
  concat (split_from cur s)
  = cur ++ List.filter (fun c => negb (isspace c)) s.
Proof.
  induction s as [|c s IH]; intros cur; simpl.
  - destruct cur; simpl; by rewrite ?app_nil_r.
  - destruct (isspace c); simpl.
    + destruct cur; simpl; by rewrite IH.
    + rewrite IH. by rewrite <- app_assoc.
Qed.

Lemma split_from_no_space s : forall cur,
  Forall (fun c => isspace c = false) cur ->
  Forall (Forall (fun c => isspace c = false)) (split_from cur s).
Proof.
  induction s as [|c s IH]; intros cur Hcur; simpl.
  - destruct cur; [constructor|]. by constructor.
  - destruct (isspace c) eqn:Hc.
    + destruct cur; [by apply IH|]. constructor; [done|by apply IH].
    + apply IH. apply Forall_app. split; [done|]. by constructor.
Qed.

Lemma fragments_chars (text : str) w c :
  w ∈ fragments text -> c ∈ w ->
  isspace c = false
  /\ (category_P c = true -> c = 45%N \/ c = 39%N).
Proof.
  intros Hw Hc. unfold fragments in Hw. split.
  - pose proof (split_from_no_space
      (List.filter (fun c => negb (category_P c) || (c =? 45)%N || (c =? 39)%N)
         (lower text)) [] (Forall_nil_2 _)) as Hall.
    rewrite Forall_forall in Hall. specialize (Hall w Hw).
    rewrite Forall_forall in Hall. by apply Hall.
  - assert (c ∈ concat (split
      (List.filter (fun c => negb (category_P c) || (c =? 45)%N || (c =? 39)%N)
         (lower text)))) as Hin.
    { apply list_elem_of_In, in_concat. exists w.
      split; by apply list_elem_of_In. }
    unfold split in Hin. rewrite split_from_concat in Hin. simpl in Hin.
    apply list_elem_of_In, filter_In in Hin as [Hin _].
    apply filter_In in Hin as [_ Hkeep].
    intros HP. rewrite HP in Hkeep. simpl in Hkeep.
    apply orb_true_iff in Hkeep as [Hk|Hk]; apply N.eqb_eq in Hk; auto.
Qed.

End SplitFacts.

(** [split] loses nothing but whitespace: the fragments put end to
    end are the string without its whitespace, and no fragment holds a
    whitespace character. *)
Theorem split_partitions :
  forall (U : Unicode) (s : str),
    concat (split s) = List.filter (fun c => negb (isspace c)) s
    /\ Forall (Forall (fun c => isspace c = false)) (split s).
Proof.
  intros U s. split.
  - unfold split. by rewrite split_from_concat.
  - apply split_from_no_space. constructor.
Qed.

(** ** The counts of bag_of_words *)

(** The sum of the counts of a mapping. *)
Definition total (bow : gmap (list N) nat) : nat :=
  map_fold (fun _ n acc => (n + acc)%nat) 0%nat bow.

Section Counts.
Context `{Unicode}.

Lemma total_insert (bow : gmap (list N) nat) k n :
  bow !! k = None -> total (<[k := n]> bow) = (n + total bow)%nat.
Proof.
  intros Hk. unfold total.
  rewrite map_fold_insert_L; [done| |done].
  intros. lia.
Qed.

Lemma total_delete (bow : gmap (list N) nat) k n :
  bow !! k = Some n -> total bow = (n + total (delete k bow))%nat.
Proof.
  intros Hk. rewrite <- (insert_delete_id bow k n Hk) at 1.
  apply total_insert. apply lookup_delete_eq.
Qed.

Lemma total_count (bow : gmap (list N) nat) t :
  total (count t bow) = S (total bow).
Proof.
  unfold count. destruct (bow !! t) as [n|] eqn:Ht.
  - rewrite <- insert_delete_eq, total_insert by apply lookup_delete_eq.
    rewrite (total_delete bow t n Ht). lia.
  - by rewrite total_insert.
Qed.

Lemma total_tally_from l : forall bow,
  total (tally_from bow l) = (total bow + length l)%nat.
Proof.
  induction l as [|t l IH]; intros bow; simpl; [lia|].
  unfold tally_from in *. simpl. rewrite IH, total_count. lia.
Qed.

Lemma length_contribution g : (length (contribution g) <= length (members g))%nat.
Proof.
  destruct g as [w|[|c [|c' r]]]; simpl; try lia.
  destruct (Nat.ltb 1 (length w)); simpl; lia.
Qed.

Lemma length_counted (words : list str) :
  (length (counted words) <= length words)%nat.
Proof.
  unfold counted. rewrite <- (groups_members words) at 2.
  induction (groups words) as [|g gs IH]; simpl; [done|].
  rewrite !length_app. pose proof (length_contribution g). lia.
Qed.

(** What a word longer than one character contributes: itself, as often
    as it occurs. *)
Lemma occurrences_app k (l1 l2 : list str) :
  occurrences k (l1 ++ l2) = (occurrences k l1 + occurrences k l2)%nat.
Proof. unfold occurrences. by rewrite List.filter_app, length_app. Qed.

Lemma occurrences_short k (l : list str) :
  Forall (fun w => length w <> length k) l -> occurrences k l = 0%nat.
Proof.
  induction 1 as [|w l Hw _ IH]; [done|].
  unfold occurrences in *. simpl.
  destruct (str_eqb k w) eqn:Heq; [|done].
  apply str_eqb_eq in Heq as ->. done.
Qed.

Lemma occurrences_group k g :
  (1 < length k)%nat ->
  match g with
  | Word _ => True
  | Run r => Forall (fun w => length w = 1%nat) r
  end ->
  occurrences k (contribution g) = occurrences k (members g).
Proof.
  intros Hk Hg. destruct g as [w|r]; simpl.
  - destruct (Nat.ltb 1 (length w)) eqn:Hw; [done|].
    apply Nat.ltb_ge in Hw. symmetry. apply occurrences_short.
    constructor; [lia|constructor].
  - assert (occurrences k r = 0%nat) as ->.
    { apply occurrences_short. eapply Forall_impl; [exact Hg|].
      simpl. intros. lia. }
    destruct r as [|c [|c' r]]; [done| |done].
    apply occurrences_short. inversion Hg; subst.
    constructor; [lia|constructor].
Qed.

Lemma occurrences_counted k (words : list str) :
  (1 < length k)%nat ->
  occurrences k (counted words) = occurrences k words.
Proof.
  intros Hk. unfold counted. rewrite <- (groups_members words) at 2.
  pose proof (groups_sound words) as Hsound.
  induction (groups words) as [|g gs IH]; [done|].
  simpl. rewrite !occurrences_app, IH.
  - f_equal. apply occurrences_group; [done|].
    specialize (Hsound g (list_elem_of_here _ _)).
    destruct g as [w|r]; [done|]. destruct Hsound as [_ Hall].
    eapply Forall_impl; [exact Hall|]. by intros x [_ ?].
  - intros g' Hg'. apply Hsound. by right.
Qed.

End Counts.

Section BagFacts.
Context `{Unicode}.

Lemma bag_key_fragment (text : str) (bow : gmap (list N) nat) k :
  bag_of_words text = Ret bow -> is_Some (bow !! k) -> k ∈ fragments text.
Proof.
  intros Hbow [n Hk].
  rewrite bag_of_words_spec in Hbow. injection Hbow as <-.
  rewrite (tally_from_empty (counted (fragments text)) k) in Hk.
  assert (k ∈ counted (fragments text)) as Hin.
  { apply occurrences_elem_of. by destruct (occurrences k _). }
  destruct (counted_origin _ _ Hin) as [[Hg _]|[Hg _]];
    apply groups_sound in Hg; simpl in Hg.
  - by destruct Hg.
  - destruct Hg as [_ Hall]. by inversion Hall as [|? ? [? _] _].
Qed.

Lemma counted_shredded (words : list str) :
  Forall (fun w => length w = 1%nat) words ->
  length words <> 1%nat ->
  counted words = [].
Proof.
  intros Hall Hlen. destruct words as [|w run]; [done|].
  rewrite <- (app_nil_r (w :: run)).
  rewrite counted_run; [|done|by intros ?].
  destruct run; [done|]. done.
Qed.

End BagFacts.

(** X9: every count of the mapping is at least 1, and the counts add up
    to no more than the number of fragments: a fragment is counted once
    or not at all. *)
Theorem bag_of_words_counts :
  forall (U : Unicode) (text : str),
    exists bow,
      bag_of_words text = Ret bow
      /\ (forall k n, bow !! k = Some n -> (1 <= n)%nat)
      /\ (total bow <= length (fragments text))%nat.
Proof.
  intros U text. exists (tally_from ∅ (counted (fragments text))).
  split; [apply bag_of_words_spec|]. split.
  - intros k n Hk.
    rewrite (tally_from_empty (counted (fragments text)) k) in Hk.
    destruct (occurrences k _); [done|]. injection Hk as <-. lia.
  - rewrite total_tally_from. unfold total. rewrite map_fold_empty.
    apply length_counted.
Qed.

(** X10: a text whose fragments are all single characters, two of them
    or more, or none at all, gives the empty mapping. *)
Theorem bag_of_words_shredded :
  forall (U : Unicode) (text : str),
    Forall (fun w => length w = 1%nat) (fragments text) ->
    length (fragments text) <> 1%nat ->
    bag_of_words text = Ret ∅.
Proof.
  intros U text Hall Hlen.
  by rewrite bag_of_words_spec, counted_shredded.
Qed.

Lemma bag_of_words_shredded_witness :
  (Forall (fun w => length w = 1%nat)
     (@fragments ascii_unicode (u "H a r p e r,"))
   /\ length (@fragments ascii_unicode (u "H a r p e r,")) <> 1%nat) /\
  @bag_of_words ascii_unicode (u "H a r p e r,") = Ret ∅.
Proof.
  assert (Forall (fun w => length w = 1%nat)
            (@fragments ascii_unicode (u "H a r p e r,"))) as Hall
    by (vm_compute; repeat constructor).
  assert (length (@fragments ascii_unicode (u "H a r p e r,")) <> 1%nat)
    as Hlen by (vm_compute; discriminate).
  split; [split; [exact Hall|exact Hlen]|].
  exact (bag_of_words_shredded ascii_unicode (u "H a r p e r,") Hall Hlen).
Defined.

(** X11: no key of the mapping holds a whitespace character, or a
    punctuation character other than hyphen and apostrophe. *)
Theorem bag_of_words_keys_clean :
  forall (U : Unicode) (text : str) (bow : gmap (list N) nat) (k : str) (c : N),
    bag_of_words text = Ret bow ->
    is_Some (bow !! k) ->
    c ∈ k ->
    isspace c = false
    /\ (category_P c = true -> c = 45%N \/ c = 39%N).
Proof.
  intros U text bow k c Hbow Hk Hc.
  eapply fragments_chars; [|exact Hc].
  by eapply bag_key_fragment.
Qed.

Lemma bag_of_words_keys_clean_witness :
  exists bow,
    @bag_of_words ascii_unicode (u "What's a well-known dog?") = Ret bow
    /\ is_Some (bow !! u "what's")
    /\ 39%N ∈ u "what's"
    /\ @isspace ascii_unicode 39 = false
    /\ (@category_P ascii_unicode 39 = true -> 39%N = 45%N \/ 39%N = 39%N).
Proof.
  exists {[ u "what's" := 1%nat; u "a" := 1%nat; u "well-known" := 1%nat;
            u "dog" := 1%nat ]}.
  assert (@bag_of_words ascii_unicode (u "What's a well-known dog?")
          = Ret {[ u "what's" := 1%nat; u "a" := 1%nat;
                   u "well-known" := 1%nat; u "dog" := 1%nat ]}) as Hbow
    by (vm_compute; reflexivity).
  assert (is_Some (({[ u "what's" := 1%nat; u "a" := 1%nat;
                       u "well-known" := 1%nat; u "dog" := 1%nat ]}
                    : gmap (list N) nat) !! u "what's")) as Hkey
    by (exists 1%nat; vm_compute; reflexivity).
  assert (39%N ∈ u "what's") as Hc by (vm_compute; repeat constructor).
  split; [exact Hbow|]. split; [exact Hkey|]. split; [exact Hc|].
  exact (bag_of_words_keys_clean ascii_unicode (u "What's a well-known dog?")
           _ (u "what's") 39%N Hbow Hkey Hc).
Defined.

(** X12: the merge rule leaves words of two characters or more alone:
    such a word is counted as often as it occurs among the fragments. *)
Theorem bag_of_words_long_words :
  forall (U : Unicode) (text : str) (k : str),
    (1 < length k)%nat ->
    exists bow,
      bag_of_words text = Ret bow
      /\ bow !! k = match occurrences k (fragments text) with
                    | O => None
                    | S n => Some (S n)
                    end.
Proof.
  intros U text k Hk. exists (tally_from ∅ (counted (fragments text))).
  split; [apply bag_of_words_spec|].
  rewrite (tally_from_empty (counted (fragments text)) k).
  by rewrite occurrences_counted.
Qed.

Lemma bag_of_words_long_words_witness :
  (1 < length (u "name"))%nat /\
  exists bow,
    @bag_of_words ascii_unicode
      (u "Hello my name is H a r p e r, what's your name?") = Ret bow
    /\ bow !! u "name"
       = match occurrences (u "name")
                 (@fragments ascii_unicode
                    (u "Hello my name is H a r p e r, what's your name?")) with
         | O => None
         | S n => Some (S n)
         end.
Proof.
  assert (1 < length (u "name"))%nat as Hk by (vm_compute; lia).
  split; [exact Hk|].
  exact (bag_of_words_long_words ascii_unicode
           (u "Hello my name is H a r p e r, what's your name?")
           (u "name") Hk).
Defined.

(** ** The git connector *)

Lemma startswith_spec (hay prefix : str) :
  startswith hay prefix = true <-> exists rest, hay = prefix ++ rest.
Proof.
  revert hay. induction prefix as [|p prefix IH]; intros hay; simpl.
  - split; [intros _; by exists hay|intros _; by destruct hay].
  - destruct hay as [|h hay]; simpl.
    + split; [done|]. by intros (rest & ?).
    + rewrite andb_true_iff, N.eqb_eq, IH. split.
      * intros (-> & rest & ->). by exists rest.
      * intros (rest & [= -> ->]). split; [done|by exists rest].
Qed.

Lemma endswith_spec (s suffix : str) :
  endswith s suffix = true <-> exists front, s = front ++ suffix.
Proof.
  unfold endswith. rewrite startswith_spec. split.
  - intros (rest & Hrev). exists (rev rest).
    rewrite <- (rev_involutive s), Hrev, rev_app_distr.
    by rewrite rev_involutive.
  - intros (front & ->). exists (rev front). apply rev_app_distr.
Qed.

Lemma startswith_app (hay more prefix : str) :
  (length prefix <= length hay)%nat ->
  startswith (hay ++ more) prefix = startswith hay prefix.
Proof.
  revert hay. induction prefix as [|p prefix IH]; intros hay Hlen;
    destruct hay as [|h hay]; simpl in *; try done; try lia.
  - by destruct more.
  - rewrite IH by lia. done.
Qed.

Lemma endswith_app (front s suffix : str) :
  (length suffix <= length s)%nat ->
  endswith (front ++ s) suffix = endswith s suffix.
Proof.
  intros Hlen. unfold endswith. rewrite rev_app_distr.
  apply startswith_app. by rewrite !length_rev.
Qed.

Lemma supported_suffixes_shape :
  Forall (fun suffix : str =>
            46%N ∈ suffix /\ (3 <= length suffix <= 5)%nat)
    Git.supported_suffixes.
Proof.
  unfold Git.supported_suffixes.
  repeat (constructor; [split; [by left|simpl; lia]|]). constructor.
Qed.

(** X13: a path that [is_file_type_supported] accepts holds a dot and is
    three characters long or more, so that a name without an extension is
    always discarded; the discard is logged, the acceptance is not. *)
Theorem is_file_type_supported_needs_dot :
  forall path : str,
    ((Git.is_file_type_supported path).1 = true ->
     46%N ∈ path /\ (3 <= length path)%nat
     /\ (Git.is_file_type_supported path).2 = [])
    /\ ((Git.is_file_type_supported path).1 = false ->
        (Git.is_file_type_supported path).2 = [Git.DiscardedFiletype path]).
Proof.
  intros path. unfold Git.is_file_type_supported.
  destruct (existsb (endswith path) Git.supported_suffixes) eqn:Hsup; simpl.
  - split; [intros _|done].
    apply existsb_exists in Hsup as (suffix & Hin & Hends).
    apply endswith_spec in Hends as (front & ->).
    pose proof supported_suffixes_shape as Hshape.
    rewrite Forall_forall in Hshape.
    destruct (Hshape suffix) as (Hdot & Hlen & _);
      [by apply list_elem_of_In|].
    split; [apply elem_of_app; by right|].
    split; [rewrite length_app; lia|done].
  - split; [done|]. done.
Qed.

(** X14: only the last five characters of a path decide whether its type
    is supported: the directories in front change nothing. *)
Theorem is_file_type_supported_suffix :
  forall front path : str,
    (5 <= length path)%nat ->
    (Git.is_file_type_supported (front ++ path)).1
    = (Git.is_file_type_supported path).1.
Proof.
  intros front path Hlen.
  assert (existsb (endswith (front ++ path)) Git.supported_suffixes
          = existsb (endswith path) Git.supported_suffixes) as Hsame.
  { pose proof supported_suffixes_shape as Hshape.
    induction Hshape as [|suffix l (_ & _ & Hle) _ IH]; [done|].
    simpl. rewrite IH, endswith_app by lia. done. }
  unfold Git.is_file_type_supported. rewrite Hsame.
  by destruct (existsb (endswith path) Git.supported_suffixes).
Qed.

Lemma is_file_type_supported_suffix_witness :
  (5 <= length (u "notes.md"))%nat /\
  (Git.is_file_type_supported (u "docs/old/" ++ u "notes.md")).1
  = (Git.is_file_type_supported (u "notes.md")).1.
Proof.
  assert (5 <= length (u "notes.md"))%nat as Hlen by (vm_compute; lia).
  split; [exact Hlen|].
  exact (is_file_type_supported_suffix (u "docs/old/") (u "notes.md") Hlen).
Defined.

Lemma split_on_from_app sep (a b : str) : forall cur,
  split_on_from sep cur (a ++ sep :: b)
  = split_on_from sep cur a ++ split_on_from sep [] b.
Proof.
  induction a as [|c a IH]; intros cur; simpl.
  - by rewrite N.eqb_refl.
  - destruct (N.eqb c sep); simpl; by rewrite IH.
Qed.

(** X15: without a glob every path matches.  A glob made of two globs
    with a comma between them matches the paths that one of the two
    matches; a path is logged as discarded exactly when none does. *)
Theorem does_path_match_glob_alternatives :
  forall (fnmatch : str -> str -> bool) (path : str),
    Git.does_path_match_glob fnmatch None path = (true, [])
    /\ Git.does_path_match_glob fnmatch (Some []) path = (true, [])
    /\ forall g1 g2 : str,
         g1 <> [] -> g2 <> [] ->
         Git.does_path_match_glob fnmatch (Some (g1 ++ comma :: g2)) path
         = if (Git.does_path_match_glob fnmatch (Some g1) path).1
              || (Git.does_path_match_glob fnmatch (Some g2) path).1
           then (true, []) else (false, [Git.DiscardedGlob path]).
Proof.
  intros fnmatch path. split; [done|]. split; [done|].
  intros g1 g2 H1 H2.
  assert (g1 ++ comma :: g2 <> []) as H12 by by destruct g1.
  unfold Git.does_path_match_glob.
  destruct g1 as [|c1 g1]; [done|]. destruct g2 as [|c2 g2]; [done|].
  change ((c1 :: g1) ++ comma :: c2 :: g2)
    with (c1 :: (g1 ++ comma :: c2 :: g2)).
  cbv zeta.
  change (c1 :: (g1 ++ comma :: c2 :: g2))
    with ((c1 :: g1) ++ comma :: c2 :: g2).
  unfold split_on. rewrite split_on_from_app, existsb_app.
  destruct (existsb (fnmatch path) (split_on_from comma [] (c1 :: g1)));
    destruct (existsb (fnmatch path) (split_on_from comma [] (c2 :: g2)));
    reflexivity.
Qed.

Lemma does_path_match_glob_alternatives_witness :
  (u "*.md" <> [] /\ u "*.txt" <> []) /\
  Git.does_path_match_glob (fun path pattern => endswith path (drop 1 pattern))
    (Some (u "*.md" ++ comma :: u "*.txt")) (u "notes.txt")
  = if (Git.does_path_match_glob
          (fun path pattern => endswith path (drop 1 pattern))
          (Some (u "*.md")) (u "notes.txt")).1
       || (Git.does_path_match_glob
             (fun path pattern => endswith path (drop 1 pattern))
             (Some (u "*.txt")) (u "notes.txt")).1
    then (true, []) else (false, [Git.DiscardedGlob (u "notes.txt")]).
Proof.
  split; [split; discriminate|].
  apply (proj2 (proj2 (does_path_match_glob_alternatives
                         (fun path pattern => endswith path (drop 1 pattern))
                         (u "notes.txt"))));
    discriminate.
Defined.

(** ** The Salesforce connector *)

Section ParseFolders.
Context `{Unicode}.

Lemma split_on_from_length sep s : forall cur,
  length (split_on_from sep cur s)
  = S (length (List.filter (N.eqb sep) s)).
Proof.
  induction s as [|c s IH]; intros cur; simpl; [done|].
  rewrite (N.eqb_sym sep c).
  destruct (N.eqb c sep); simpl; by rewrite IH.
Qed.

Lemma split_on_from_no_sep sep s : forall cur,
  sep ∉ cur -> Forall (fun piece => sep ∉ piece) (split_on_from sep cur s).
Proof.
  induction s as [|c s IH]; intros cur Hcur; simpl.
  - by constructor.
  - destruct (N.eqb c sep) eqn:Hc.
    + constructor; [done|]. apply IH. apply not_elem_of_nil.
    + apply IH. apply N.eqb_neq in Hc.
      rewrite elem_of_app, list_elem_of_singleton.
      intros [Hin|Heq]; [by apply Hcur|congruence].
Qed.

Lemma lstrip_suffix s : exists front, s = front ++ Salesforce.lstrip s.
Proof.
  induction s as [|c s (front & IH)]; simpl.
  - by exists [].
  - destruct (isspace c).
    + exists (c :: front). simpl. by rewrite <- IH.
    + by exists [].
Qed.

Lemma lstrip_head s c :
  head (Salesforce.lstrip s) = Some c -> isspace c = false.
Proof.
  induction s as [|c' s IH]; simpl; [done|].
  destruct (isspace c') eqn:Hc'; [done|]. by intros [= <-].
Qed.

Lemma elem_of_rev (l : str) c : c ∈ rev l <-> c ∈ l.
Proof.
  split; intros Hc; apply list_elem_of_In; apply list_elem_of_In in Hc.
  - by apply (proj2 (in_rev l c)).
  - by apply (proj1 (in_rev l c)).
Qed.

Lemma strip_elem_of s c : c ∈ Salesforce.strip s -> c ∈ s.
Proof.
  unfold Salesforce.strip. rewrite elem_of_rev. intros Hc.
  destruct (lstrip_suffix (rev (Salesforce.lstrip s))) as (f1 & H1).
  assert (c ∈ rev (Salesforce.lstrip s)) as Hc1.
  { rewrite H1. apply elem_of_app. by right. }
  apply (proj1 (elem_of_rev _ _)) in Hc1.
  destruct (lstrip_suffix s) as (f2 & H2). rewrite H2.
  apply elem_of_app. by right.
Qed.

Lemma head_rev (l : str) : head (rev l) = last l.
Proof.
  induction l as [|x l IH] using rev_ind; [done|].
  by rewrite rev_app_distr, last_snoc.
Qed.

Lemma last_rev (l : str) : last (rev l) = head l.
Proof. by rewrite <- head_rev, rev_involutive. Qed.

Lemma strip_ends s :
  (forall c, head (Salesforce.strip s) = Some c -> isspace c = false)
  /\ (forall c, last (Salesforce.strip s) = Some c -> isspace c = false).
Proof.
  unfold Salesforce.strip. split; intros c.
  - rewrite head_rev. intros Hlast.
    destruct (lstrip_suffix (rev (Salesforce.lstrip s))) as (front & Hsuf).
    assert (last (rev (Salesforce.lstrip s)) = Some c) as Hl.
    { rewrite Hsuf. rewrite last_app, Hlast. done. }
    rewrite last_rev in Hl. by apply lstrip_head in Hl.
  - rewrite last_rev. apply lstrip_head.
Qed.

End ParseFolders.

(** X16: [parse_folders] returns one folder more than the string has
    commas, so never an empty list; no folder holds a comma, and none
    starts or ends with whitespace. *)
Theorem parse_folders_shape :
  forall (U : Unicode) (folder_str : str),
    length (Salesforce.parse_folders folder_str)
    = S (length (List.filter (N.eqb comma) folder_str))
    /\ Forall (fun folder : str =>
                 (comma ∉ folder)
                 /\ (forall c, head folder = Some c -> isspace c = false)
                 /\ (forall c, last folder = Some c -> isspace c = false))
         (Salesforce.parse_folders folder_str).
Proof.
  intros U folder_str. unfold Salesforce.parse_folders, split_on. split.
  - by rewrite length_map, split_on_from_length.
  - apply Forall_map.
    eapply Forall_impl;
      [apply (split_on_from_no_sep comma folder_str []), not_elem_of_nil|].
    intros piece Hpiece. simpl. split.
    + intros Hin. by apply Hpiece, strip_elem_of.
    + apply strip_ends.
Qed.

Example parse_folders_example :
  @Salesforce.parse_folders ascii_unicode (u " Inbox , Sent Items,,Drafts ")
  = [u "Inbox"; u "Sent Items"; []; u "Drafts"].
Proof. vm_compute. reflexivity. Qed.

Lemma accepted_categories_spec (record_type : str) :
  str_in record_type Salesforce.ACCEPTED_CATEGORIES = true
  <-> record_type ∈ Salesforce.ACCEPTED_CATEGORIES.
Proof.
  unfold str_in. rewrite existsb_exists. split.
  - intros (x & Hx & ->%str_eqb_eq). by apply list_elem_of_In.
  - intros Hin. exists record_type.
    split; [by apply list_elem_of_In|by apply str_eqb_eq].
Qed.

Lemma tmp_download_file_accepted (doc : Salesforce.SalesforceIngestDoc) :
  str_in (Salesforce.record_type doc) Salesforce.ACCEPTED_CATEGORIES = true ->
  Salesforce._tmp_download_file doc
  = inr [Salesforce.download_dir doc; Salesforce.record_type doc;
         Salesforce.record_id doc
         ++ if str_eqb (Salesforce.record_type doc) (u "EmailMessage")
            then u ".eml" else u ".xml"].
Proof.
  unfold Salesforce._tmp_download_file, str_in,
    Salesforce.ACCEPTED_CATEGORIES.
  destruct (str_eqb (Salesforce.record_type doc) (u "EmailMessage")) eqn:He;
    [done|].
  simpl. rewrite He. simpl.
  destruct (str_eqb (Salesforce.record_type doc) (u "Account")),
    (str_eqb (Salesforce.record_type doc) (u "Case")),
    (str_eqb (Salesforce.record_type doc) (u "Campaign")),
    (str_eqb (Salesforce.record_type doc) (u "Lead")); simpl; done.
Qed.

Lemma tmp_download_file_rejected (doc : Salesforce.SalesforceIngestDoc) :
  str_in (Salesforce.record_type doc) Salesforce.ACCEPTED_CATEGORIES = false ->
  Salesforce._tmp_download_file doc
  = inl (Salesforce.MissingCategoryError
           (u "There are no categories with the name: "
            ++ Salesforce.record_type doc)).
Proof.
  unfold Salesforce._tmp_download_file, str_in,
    Salesforce.ACCEPTED_CATEGORIES.
  simpl.
  destruct (str_eqb (Salesforce.record_type doc) (u "EmailMessage")),
    (str_eqb (Salesforce.record_type doc) (u "Account")),
    (str_eqb (Salesforce.record_type doc) (u "Case")),
    (str_eqb (Salesforce.record_type doc) (u "Campaign")),
    (str_eqb (Salesforce.record_type doc) (u "Lead")); simpl; done.
Qed.

(** X17: the record types that [_tmp_download_file] names a file for are
    the [ACCEPTED_CATEGORIES]: for one of them the file is the record id
    with [.eml] (an [EmailMessage]) or [.xml] under the directory of the
    type; for any other type the call raises [MissingCategoryError] with
    the type in its message. *)
Theorem tmp_download_file_categories :
  forall doc : Salesforce.SalesforceIngestDoc,
    (Salesforce.record_type doc ∈ Salesforce.ACCEPTED_CATEGORIES ->
     Salesforce._tmp_download_file doc
     = inr [Salesforce.download_dir doc; Salesforce.record_type doc;
            Salesforce.record_id doc
            ++ if str_eqb (Salesforce.record_type doc) (u "EmailMessage")
               then u ".eml" else u ".xml"])
    /\ (Salesforce.record_type doc ∉ Salesforce.ACCEPTED_CATEGORIES ->
        Salesforce._tmp_download_file doc
        = inl (Salesforce.MissingCategoryError
                 (u "There are no categories with the name: "
                  ++ Salesforce.record_type doc))).
Proof.
  intros doc. split; intros Hin.
  - by apply tmp_download_file_accepted, accepted_categories_spec.
  - apply tmp_download_file_rejected.
    destruct (str_in _ _) eqn:Hacc; [|done].
    by apply accepted_categories_spec in Hacc.
Qed.

Lemma tmp_download_file_categories_witness :
  u "Lead" ∈ Salesforce.ACCEPTED_CATEGORIES /\
  Salesforce._tmp_download_file
    (Salesforce.Build_SalesforceIngestDoc (u "tmp") (u "out") (u "Lead")
       (u "00Q5e"))
  = inr [u "tmp"; u "Lead"; u "00Q5e.xml"].
Proof.
  assert (u "Lead" ∈ Salesforce.ACCEPTED_CATEGORIES) as Hin
    by (unfold Salesforce.ACCEPTED_CATEGORIES; repeat constructor).
  split; [exact Hin|].
  exact (proj1 (tmp_download_file_categories
                  (Salesforce.Build_SalesforceIngestDoc (u "tmp") (u "out")
                     (u "Lead") (u "00Q5e"))) Hin).
Defined.

Section IngestDocs.
Variable query_all : str -> Salesforce.error + list str.
Variables (download_dir output_dir : str).

Let docs_of (record_type : str) (ids : list str)
    : list Salesforce.SalesforceIngestDoc :=
  List.map (fun id => Salesforce.Build_SalesforceIngestDoc
                        download_dir output_dir record_type id) ids.

Lemma get_ingest_docs_from_cons acc record_type rest :
  str_in record_type Salesforce.ACCEPTED_CATEGORIES = true ->
  Salesforce.get_ingest_docs_from query_all download_dir output_dir acc
    (record_type :: rest)
  = match query_all (u "select Id from " ++ record_type) with
    | inr ids =>
        Salesforce.get_ingest_docs_from query_all download_dir output_dir
          (acc ++ docs_of record_type ids) rest
    | inl (Salesforce.SalesforceMalformedRequest e) =>
        inl (Salesforce.SalesforceMalformedRequest
               (u "Problem with Salesforce query: " ++ e))
    | inl e => inl e
    end.
Proof.
  intros Hacc. cbn [Salesforce.get_ingest_docs_from]. by rewrite Hacc.
Qed.

Lemma get_ingest_docs_from_rejected acc record_type rest :
  str_in record_type Salesforce.ACCEPTED_CATEGORIES = false ->
  Salesforce.get_ingest_docs_from query_all download_dir output_dir acc
    (record_type :: rest)
  = inl (Salesforce.ValueError
           (record_type ++ u " not currently an accepted Salesforce category")).
Proof.
  intros Hacc. cbn [Salesforce.get_ingest_docs_from]. by rewrite Hacc.
Qed.

Lemma get_ingest_docs_from_returns categories : forall acc docs,
  Salesforce.get_ingest_docs_from query_all download_dir output_dir acc
    categories = inr docs ->
  Forall (fun c => c ∈ Salesforce.ACCEPTED_CATEGORIES) categories
  /\ exists new,
       docs = acc ++ new
       /\ Forall (fun doc => Salesforce.record_type doc
                             ∈ Salesforce.ACCEPTED_CATEGORIES) new.
Proof.
  induction categories as [|c rest IH]; intros acc docs Hret.
  - simpl in Hret. injection Hret as <-. split; [constructor|].
    exists []. split; [by rewrite app_nil_r|constructor].
  - destruct (str_in c Salesforce.ACCEPTED_CATEGORIES) eqn:Hacc.
    + rewrite get_ingest_docs_from_cons in Hret by done.
      apply accepted_categories_spec in Hacc.
      destruct (query_all (u "select Id from " ++ c)) as [[]|ids];
        try discriminate.
      destruct (IH _ _ Hret) as (Hrest & new & -> & Hnew).
      split; [by constructor|].
      exists (docs_of c ids ++ new). split; [by rewrite app_assoc|].
      apply Forall_app. split; [|done].
      unfold docs_of. apply Forall_map. by apply Forall_true.
    + by rewrite get_ingest_docs_from_rejected in Hret.
Qed.

Lemma get_ingest_docs_from_all (ids : str -> list str) categories :
  forall acc,
    Forall (fun c => c ∈ Salesforce.ACCEPTED_CATEGORIES) categories ->
    (forall c, c ∈ categories ->
       query_all (u "select Id from " ++ c) = inr (ids c)) ->
    Salesforce.get_ingest_docs_from query_all download_dir output_dir acc
      categories
    = inr (acc ++ flat_map (fun c => docs_of c (ids c)) categories).
Proof.
  induction categories as [|c rest IH]; intros acc Hacc Hquery.
  - simpl. by rewrite app_nil_r.
  - inversion Hacc as [|? ? Hc Hrest]; subst.
    rewrite get_ingest_docs_from_cons by by apply accepted_categories_spec.
    rewrite Hquery by by left.
    rewrite IH; [|done|intros; apply Hquery; by right].
    simpl. by rewrite app_assoc.
Qed.

End IngestDocs.

(** X18: [get_ingest_docs] returns a list only if every category is one
    of the [ACCEPTED_CATEGORIES]; every document of the list then has a
    download file: [_tmp_download_file] does not raise on it. *)
Theorem get_ingest_docs_returns :
  forall (query_all : str -> Salesforce.error + list str)
         (download_dir output_dir : str) (categories : list str)
         (docs : list Salesforce.SalesforceIngestDoc),
    Salesforce.get_ingest_docs query_all download_dir output_dir categories
    = inr docs ->
    Forall (fun c => c ∈ Salesforce.ACCEPTED_CATEGORIES) categories
    /\ Forall (fun doc => exists path,
                 Salesforce._tmp_download_file doc = inr path) docs.
Proof.
  intros query_all dd od categories docs Hret.
  destruct (get_ingest_docs_from_returns query_all dd od categories [] docs Hret)
    as (Hcats & new & -> & Hnew).
  split; [done|]. simpl.
  eapply Forall_impl; [exact Hnew|]. intros doc Hdoc. simpl in Hdoc.
  eexists. by apply tmp_download_file_accepted, accepted_categories_spec.
Qed.

Lemma get_ingest_docs_returns_witness :
  Salesforce.get_ingest_docs (fun _ => inr [u "001"; u "002"])
    (u "tmp") (u "out") [u "Lead"; u "EmailMessage"]
  = inr (flat_map
           (fun c => List.map
                       (Salesforce.Build_SalesforceIngestDoc (u "tmp")
                          (u "out") c)
                       [u "001"; u "002"])
           [u "Lead"; u "EmailMessage"])
  /\ Forall (fun c => c ∈ Salesforce.ACCEPTED_CATEGORIES)
       [u "Lead"; u "EmailMessage"]
  /\ Forall (fun doc => exists path,
               Salesforce._tmp_download_file doc = inr path)
       (flat_map
          (fun c => List.map
                      (Salesforce.Build_SalesforceIngestDoc (u "tmp")
                         (u "out") c)
                      [u "001"; u "002"])
          [u "Lead"; u "EmailMessage"]).
Proof.
  assert (Salesforce.get_ingest_docs (fun _ => inr [u "001"; u "002"])
            (u "tmp") (u "out") [u "Lead"; u "EmailMessage"]
          = inr (flat_map
                   (fun c => List.map
                               (Salesforce.Build_SalesforceIngestDoc (u "tmp")
                                  (u "out") c)
                               [u "001"; u "002"])
                   [u "Lead"; u "EmailMessage"])) as Hret by reflexivity.
  split; [exact Hret|].
  exact (get_ingest_docs_returns (fun _ => inr [u "001"; u "002"])
           (u "tmp") (u "out") [u "Lead"; u "EmailMessage"] _ Hret).
Defined.

(** X19: when every category is accepted and every query answers, the
    documents come in the order of the categories, and within a category
    in the order of the answer: one document for each record id. *)
Theorem get_ingest_docs_order :
  forall (query_all : str -> Salesforce.error + list str)
         (download_dir output_dir : str) (categories : list str)
         (ids : str -> list str),
    Forall (fun c => c ∈ Salesforce.ACCEPTED_CATEGORIES) categories ->
    (forall c, c ∈ categories ->
       query_all (u "select Id from " ++ c) = inr (ids c)) ->
    Salesforce.get_ingest_docs query_all download_dir output_dir categories
    = inr (flat_map
             (fun c => List.map
                         (Salesforce.Build_SalesforceIngestDoc
                            download_dir output_dir c)
                         (ids c))
             categories).
Proof.
  intros query_all dd od categories ids Hacc Hquery.
  unfold Salesforce.get_ingest_docs.
  by rewrite (get_ingest_docs_from_all query_all dd od ids).
Qed.

Lemma get_ingest_docs_order_witness :
  (Forall (fun c => c ∈ Salesforce.ACCEPTED_CATEGORIES) [u "Case"; u "Lead"]
   /\ forall c, c ∈ [u "Case"; u "Lead"] ->
        (fun q : str => @inr Salesforce.error _ [q]) (u "select Id from " ++ c)
        = inr ((fun c => [u "select Id from " ++ c]) c)) /\
  Salesforce.get_ingest_docs (fun q => inr [q]) (u "tmp") (u "out")
    [u "Case"; u "Lead"]
  = inr (flat_map
           (fun c => List.map
                       (Salesforce.Build_SalesforceIngestDoc (u "tmp")
                          (u "out") c)
                       ((fun c => [u "select Id from " ++ c]) c))
           [u "Case"; u "Lead"]).
Proof.
  assert (Forall (fun c => c ∈ Salesforce.ACCEPTED_CATEGORIES)
            [u "Case"; u "Lead"]) as Hacc.
  { unfold Salesforce.ACCEPTED_CATEGORIES. repeat constructor. }
  assert (forall c, c ∈ [u "Case"; u "Lead"] ->
            (fun q : str => @inr Salesforce.error _ [q])
              (u "select Id from " ++ c)
            = inr ((fun c => [u "select Id from " ++ c]) c)) as Hquery
    by (intros; reflexivity).
  split; [split; [exact Hacc|exact Hquery]|].
  exact (get_ingest_docs_order (fun q => inr [q]) (u "tmp") (u "out")
           [u "Case"; u "Lead"] (fun c => [u "select Id from " ++ c])
           Hacc Hquery).
Defined.

(** X20: a category that is not accepted, after categories that are and
    whose queries answer, makes [get_ingest_docs] raise [ValueError] with
    the category in its message: no list is returned, although the
    categories before it have been queried. *)
Theorem get_ingest_docs_rejects :
  forall (query_all : str -> Salesforce.error + list str)
         (download_dir output_dir : str) (before after : list str)
         (category : str) (ids : str -> list str),
    Forall (fun c => c ∈ Salesforce.ACCEPTED_CATEGORIES) before ->
    (forall c, c ∈ before ->
       query_all (u "select Id from " ++ c) = inr (ids c)) ->
    category ∉ Salesforce.ACCEPTED_CATEGORIES ->
    Salesforce.get_ingest_docs query_all download_dir output_dir
      (before ++ category :: after)
    = inl (Salesforce.ValueError
             (category ++ u " not currently an accepted Salesforce category")).
Proof.
  intros query_all dd od before after category ids Hacc Hquery Hbad.
  unfold Salesforce.get_ingest_docs. generalize (@nil Salesforce.SalesforceIngestDoc).
  induction before as [|c before IH]; intros acc.
  - apply get_ingest_docs_from_rejected.
    destruct (str_in _ _) eqn:Hin; [|done].
    by apply accepted_categories_spec in Hin.
  - inversion Hacc as [|? ? Hc Hrest]; subst.
    change ((c :: before) ++ category :: after)
      with (c :: (before ++ category :: after)).
    rewrite get_ingest_docs_from_cons by by apply accepted_categories_spec.
    rewrite Hquery by by left.
    apply IH; [done|]. intros; apply Hquery; by right.
Qed.

Lemma get_ingest_docs_rejects_witness :
  (Forall (fun c => c ∈ Salesforce.ACCEPTED_CATEGORIES) [u "Lead"]
   /\ (forall c, c ∈ [u "Lead"] ->
         (fun _ : str => @inr Salesforce.error _ [u "001"])
           (u "select Id from " ++ c)
         = inr ((fun _ => [u "001"]) c))
   /\ u "Contact" ∉ Salesforce.ACCEPTED_CATEGORIES) /\
  Salesforce.get_ingest_docs (fun _ => inr [u "001"]) (u "tmp") (u "out")
    ([u "Lead"] ++ u "Contact" :: [u "Case"])
  = inl (Salesforce.ValueError
           (u "Contact" ++ u " not currently an accepted Salesforce category")).
Proof.
  assert (Forall (fun c => c ∈ Salesforce.ACCEPTED_CATEGORIES) [u "Lead"])
    as Hacc.
  { unfold Salesforce.ACCEPTED_CATEGORIES. repeat constructor. }
  assert (forall c, c ∈ [u "Lead"] ->
            (fun _ : str => @inr Salesforce.error _ [u "001"])
              (u "select Id from " ++ c)
            = inr ((fun _ => [u "001"]) c)) as Hquery
    by (intros; reflexivity).
  assert (u "Contact" ∉ Salesforce.ACCEPTED_CATEGORIES) as Hbad.
  { intros Hin. apply accepted_categories_spec in Hin. discriminate. }
  split; [split; [exact Hacc|split; [exact Hquery|exact Hbad]]|].
  exact (get_ingest_docs_rejects (fun _ => inr [u "001"]) (u "tmp") (u "out")
           [u "Lead"] [u "Case"] (u "Contact") (fun _ => [u "001"])
           Hacc Hquery Hbad).
Defined.

(** *** Flattening a record *)

(** Induction on a value, its items included. *)
Fixpoint value_induction (P : Salesforce.value -> Prop)
    (HOther : forall text, P (Salesforce.Other text))
    (HDict : forall items,
       Forall (fun kv => P kv.2) items -> P (Salesforce.OrderedDict items))
    (v : Salesforce.value) : P v :=
  match v with
  | Salesforce.Other text => HOther text
  | Salesforce.OrderedDict items =>
      HDict items
        ((fix items_induction (items : list (str * Salesforce.value))
            : Forall (fun kv => P kv.2) items :=
            match items with
            | [] => @List.Forall_nil _ (fun kv => P kv.2)
            | (key, v') :: rest =>
                @List.Forall_cons _ (fun kv => P kv.2) (key, v') rest
                  (value_induction P HOther HDict v')
                  (items_induction rest)
            end) items)
  end.

Lemma flatten_item_dict prefix key items :
  Salesforce.flatten_item prefix key (Salesforce.OrderedDict items)
  = Salesforce.flatten_dict items (prefix ++ key ++ u ".").
Proof.
  unfold Salesforce.flatten_dict.
  induction items as [|[k v] items IH]; [done|].
  simpl in *. by rewrite IH.
Qed.

Lemma leaves_dict items :
  Salesforce.leaves (Salesforce.OrderedDict items)
  = list_sum (List.map (fun kv => Salesforce.leaves kv.2) items).
Proof.
  induction items as [|[k v] items IH]; [done|].
  simpl in *. by rewrite IH.
Qed.

Lemma flatten_item_prefix v : forall prefix key,
  Salesforce.flatten_item prefix key v
  = List.map (app prefix) (Salesforce.flatten_item [] key v)
  /\ length (Salesforce.flatten_item prefix key v) = Salesforce.leaves v.
Proof.
  induction v as [text|items IH] using value_induction; intros prefix key.
  - done.
  - rewrite !flatten_item_dict, leaves_dict.
    unfold Salesforce.flatten_dict. simpl app.
    induction IH as [|[k v] items Hv _ IHitems]; [done|].
    simpl in Hv. simpl. destruct IHitems as [IH1 IH2].
    destruct (Hv (prefix ++ key ++ u ".") k) as [Hv1 Hv2].
    destruct (Hv (key ++ u ".") k) as [Hv3 _].
    split.
    + rewrite IH1, map_app. f_equal.
      rewrite Hv1, Hv3, List.map_map.
      apply List.map_ext. intros item. by rewrite <- app_assoc.
    + rewrite length_app, IH2, Hv2. done.
Qed.

(** X21: [flatten_dict] makes one item for each value that is not an
    [OrderedDict], at any depth, so that an empty [OrderedDict] leaves no
    item; and a prefix is only put in front: flattening under a prefix
    gives the items of flattening without one, each behind the prefix. *)
Theorem flatten_dict_items :
  forall (data : list (str * Salesforce.value)) (prefix : str),
    length (Salesforce.flatten_dict data prefix)
    = Salesforce.leaves (Salesforce.OrderedDict data)
    /\ Salesforce.flatten_dict data prefix
       = List.map (app prefix) (Salesforce.flatten_dict data []).
Proof.
  intros data prefix. rewrite leaves_dict. unfold Salesforce.flatten_dict.
  induction data as [|[k v] data [IH1 IH2]]; [done|].
  simpl. destruct (flatten_item_prefix v prefix k) as [Hv1 Hv2].
  split.
  - by rewrite length_app, IH1, Hv2.
  - by rewrite IH2, map_app, <- Hv1.
Qed.

Example flatten_dict_example :
  Salesforce.flatten_dict
    [(u "Id", Salesforce.Other (u "001"));
     (u "attributes",
      Salesforce.OrderedDict
        [(u "type", Salesforce.Other (u "Lead"));
         (u "empty", Salesforce.OrderedDict [])]);
     (u "Name", Salesforce.Other (u "Ada"))] []
  = [u "Id: 001"; u "attributes.type: Lead"; u "Name: Ada"].
Proof. reflexivity. Qed.
